(** * RubinTargetSelector: sky coverage of a list of targets

    A shallow embedding of [wn.py] (winding number point-in-polygon test),
    [skycoverage.py] (pixel grid, per-polygon coverage, accumulation and image
    reshaping) and [geom.py] (angular/vector conversion and rotations).

    Conventions of the embedding:
    - Python exceptions are values of [exn]; a function that may raise returns
      a [result].
    - An array of shape (N, 2) is a list of pairs, an array of shape (N, 3) a
      list of triples, a 3x3 matrix a triple of rows.
    - The winding number code only subtracts, multiplies and compares its
      coordinates; it is written once over a [Scalar] interface (numpy is
      generic in the dtype) and instantiated at [Z] (the integer arrays of
      [wn.tests]) and at [Q] (exact fractional coordinates).
    - An [np.int32] cell is a [Z] passed through [int32], which wraps.
    - [geom.py] is embedded over the real numbers [R]: [np.sin], [np.cos],
      [np.arccos], [np.sqrt] are the functions of the Reals library and
      [np.arctan2] is defined from [atan] quadrant by quadrant. Rounding is
      not modelled.
    - [layers.get_layers], [skycoverage.close_polygon] and the command-line
      readers [to_slice] and [tuple_of] are embedded as well; Python's
      [int(x)] on a string is a parameter of [to_slice]. *)

From Stdlib Require Import List ZArith QArith Bool Lia Arith.
From Stdlib Require Import Reals Lra Psatz.
From Stdlib Require Import Qreals Permutation.
From Stdlib Require String Ascii.
Import String.StringSyntax Ascii.AsciiSyntax.
Delimit Scope char_scope with char.
Delimit Scope string_scope with string.
Import ListNotations.

(** ** Exceptions *)

Inductive exn : Type :=
| IndexError
| ZeroDivisionError
| ValueError.

Inductive result (A : Type) : Type :=
| Ok (a : A)
| Raise (e : exn).

Arguments Ok {A} a.
Arguments Raise {A} e.

Definition bind {A B : Type} (m : result A) (k : A -> result B) : result B :=
  match m with
  | Ok a => k a
  | Raise e => Raise e
  end.

Notation "x <- m ;; k" := (bind m (fun x => k))
  (at level 61, m at next level, right associativity).

(** [l[i]] for a non-negative index. *)
Definition getitem {A : Type} (l : list A) (i : nat) : result A :=
  match nth_error l i with
  | Some a => Ok a
  | None => Raise IndexError
  end.

(** [l[i] = a] on an array: in range it replaces the cell, out of range it
    raises. *)
Fixpoint setitem {A : Type} (l : list A) (i : nat) (a : A) : result (list A) :=
  match l, i with
  | [], _ => Raise IndexError
  | _ :: t, O => Ok (a :: t)
  | h :: t, S j => t' <- setitem t j a ;; Ok (h :: t')
  end.

(** [range(n)] for a Python integer [n]: empty when [n <= 0]. *)
Definition range (n : Z) : list nat := seq 0 (Z.to_nat n).

(** A 32-bit signed cell: the value modulo 2^32, in [-2^31, 2^31). *)
Definition int32 (z : Z) : Z := ((z + 2 ^ 31) mod 2 ^ 32 - 2 ^ 31)%Z.

(** A 64-bit signed cell. *)
Definition int64 (z : Z) : Z := ((z + 2 ^ 63) mod 2 ^ 64 - 2 ^ 63)%Z.

(** ** wn.py *)

Class Scalar (T : Type) : Type := {
  szero : T;
  ssub : T -> T -> T;
  smul : T -> T -> T;
  sleb : T -> T -> bool;
  sltb : T -> T -> bool
}.

(** [np.int64] coordinates (the dtype of the integer arrays of [wn.tests]):
    differences and products wrap. *)
#[export] Instance Scalar_int64 : Scalar Z := {
  szero := 0%Z;
  ssub := fun a b => int64 (a - b);
  smul := fun a b => int64 (a * b);
  sleb := Z.leb;
  sltb := Z.ltb
}.

Definition Qltb (a b : Q) : bool := negb (Qle_bool b a).

#[export] Instance Scalar_Q : Scalar Q := {
  szero := 0%Q;
  ssub := Qminus;
  smul := Qmult;
  sleb := Qle_bool;
  sltb := Qltb
}.

(** Real coordinates, as [geom.rotate_to] produces them. *)
#[export] Instance Scalar_R : Scalar R := {
  szero := 0%R;
  ssub := Rminus;
  smul := Rmult;
  sleb := fun a b => if Rle_dec a b then true else false;
  sltb := fun a b => if Rlt_dec a b then true else false
}.

Module Wn.
Section Generic.
Context {T : Type} `{Scalar T}.

Local Abbreviation point := (T * T)%type.

(** [p[0]] and [p[1]]. *)
Definition c0 (p : point) : T := fst p.
Definition c1 (p : point) : T := snd p.

Definition is_left (p0 p1 p2 : point) : T :=
  ssub (smul (ssub (c0 p1) (c0 p0)) (ssub (c1 p2) (c1 p0)))
       (smul (ssub (c0 p2) (c0 p0)) (ssub (c1 p1) (c1 p0))).

(** One iteration of the loop of [wn_pnpoly]: the new value of [wn]. *)
Definition wn_body (p : point) (v : list point) (wn : Z) (i : nat)
  : result Z :=
  vi <- getitem v i ;;
  if sleb (c1 vi) (c1 p) then
    vi1 <- getitem v (i + 1) ;;
    if sltb (c1 p) (c1 vi1) then
      if sltb szero (is_left vi vi1 p) then Ok (wn + 1)%Z else Ok wn
    else Ok wn
  else
    vi1 <- getitem v (i + 1) ;;
    if sleb (c1 vi1) (c1 p) then
      if sltb (is_left vi vi1 p) szero then Ok (wn - 1)%Z else Ok wn
    else Ok wn.

Definition wn_pnpoly (p : point) (v : list point) : result Z :=
  let n := (Z.of_nat (length v) - 1)%Z in
  fold_left (fun acc i => wn <- acc ;; wn_body p v wn i) (range n) (Ok 0%Z).

(** The value [wn_pnpoly] returns, as a total function (see
    [wn_pnpoly_value] below: [wn_pnpoly] never raises). *)
Definition wn_value (p : point) (v : list point) : Z :=
  match wn_pnpoly p v with
  | Ok w => w
  | Raise _ => 0%Z
  end.

(** [wn = np.zeros(len(ps), dtype=np.int32)], then one store per point. *)
Definition wn_multipnpoly (ps : list point) (v : list point)
  : result (list Z) :=
  fold_left
    (fun acc ip =>
       wn <- acc ;;
       w <- wn_pnpoly (snd ip) v ;;
       setitem wn (fst ip) (int32 w))
    (combine (seq 0 (length ps)) ps)
    (Ok (repeat 0%Z (length ps))).

End Generic.
End Wn.

(** The triangle of [wn.tests]. *)
Definition tests_v : list (Z * Z) :=
  [(-1, -1); (1, -1); (0, 1); (-1, -1)]%Z.

Definition tests_vQ : list (Q * Q) :=
  [(-1, -1); (1, -1); (0, 1); (-1, -1)]%Q.

(** ** skycoverage.py *)

(** [a != 0] on an integer array, and [np.int32] of a boolean. *)
Definition ne0 (w : Z) : bool := negb (w =? 0)%Z.
Definition int32_of_bool (b : bool) : Z := if b then 1%Z else 0%Z.

(** A membership indicator. *)
Definition cell01 (c : Z) : Prop := c = 0%Z \/ c = 1%Z.

(** A closed polygon with only two distinct vertices. *)
Definition two_vertex (a b : Q * Q) : list (Q * Q) := [a; b; a].

Definition degenerate_polygon : list (Q * Q) := two_vertex (0, 0)%Q (1, 1)%Q.

(** [image += c] on [np.int32] arrays: cell by cell when the lengths agree,
    a length-one [c] is broadcast, any other shape is refused. *)
Definition iadd (image c : list Z) : result (list Z) :=
  if (length c =? length image)%nat then
    Ok (map (fun ab => int32 (fst ab + snd ab)) (combine image c))
  else
    match c with
    | [c0] => Ok (map (fun a => int32 (a + c0)) image)
    | _ => Raise ValueError
    end.

Module Sky.
Section Generic.
Context {T : Type} `{Scalar T}.

Definition coverage (pixels : list (T * T)) (polygon : list (T * T))
  : result (list Z) :=
  wn <- Wn.wn_multipnpoly pixels polygon ;;
  Ok (map (fun w => int32_of_bool (ne0 w)) wn).

Definition coverage_all (pixels : list (T * T))
           (polygons : list (list (T * T))) : result (list Z) :=
  p0 <- getitem polygons 0 ;;
  image <- coverage pixels p0 ;;
  fold_left
    (fun acc polygon =>
       image <- acc ;;
       c <- coverage pixels polygon ;;
       iadd image c)
    (skipn 1 polygons)
    (Ok image).

End Generic.
End Sky.

(** *** The pixel grid (exact rational coordinates) *)

(** [y[-1] = stop]. *)
Definition set_last (y : list Q) (stop : Q) : list Q :=
  removelast y ++ [stop].

(** [np.linspace(start, stop, num)] with its default [endpoint=True]:
    [arange(num) * step + start] with [step = (stop - start) / (num - 1)],
    the last sample overwritten by [stop]. *)
Definition linspace (start stop : Q) (num : nat) : list Q :=
  let div := (Z.of_nat num - 1)%Z in
  let y := map (fun k => inject_Z (Z.of_nat k)) (seq 0 num) in
  let delta := (stop - start)%Q in
  let y :=
    if (0 <? div)%Z then
      let step := (delta / inject_Z div)%Q in
      if Qeq_bool step 0 then
        map (fun k => (k / inject_Z div * delta)%Q) y
      else
        map (fun k => (k * step)%Q) y
    else
      map (fun k => (k * delta)%Q) y in
  let y := map (fun k => (k + start)%Q) y in
  if (1 <? num)%nat then set_last y stop else y.

(** [np.meshgrid(x, y)]: two arrays of shape (len y, len x) with
    [X[j][i] = x[i]] and [Y[j][i] = y[j]]. *)
Definition meshgrid (x y : list Q) : list (list Q) * list (list Q) :=
  (repeat x (length y), map (fun yj => repeat yj (length x)) y).

(** [np.array([X, Y])] has shape (2, ny, nx); [.T] reverses the axes, so
    that [T[i][j] = (X[j][i], Y[j][i])] with shape (nx, ny, 2);
    [.reshape(-1, 2)] lists the [T[i][j]] in row-major order. *)
Definition make_pixels (extent : Q * Q * Q * Q) (size : nat * nat)
  : list (Q * Q) :=
  let '(xmin, ymin, xmax, ymax) := extent in
  let '(nx, ny) := size in
  let x := linspace xmin xmax nx in
  let y := linspace ymin ymax ny in
  let '(X, Y) := meshgrid x y in
  flat_map
    (fun i => map (fun j => (nth i (nth j X []) 0%Q, nth i (nth j Y []) 0%Q))
                  (seq 0 ny))
    (seq 0 nx).

(** [a / b] for a Python float [a] and a Python int [b]. *)
Definition div_int (a : Q) (b : Z) : result Q :=
  if (b =? 0)%Z then Raise ZeroDivisionError else Ok (a / inject_Z b)%Q.

(** [np.reshape(a, (r, c))]: row [i] is [a[i*c : (i+1)*c]]. *)
Definition reshape {A : Type} (a : list A) (r c : nat)
  : result (list (list A)) :=
  if (length a =? r * c)%nat then
    Ok (map (fun i => firstn c (skipn (i * c) a)) (seq 0 r))
  else Raise ValueError.

(** [m.T] for [m] of shape (r, c): shape (c, r), [m.T[j][i] = m[i][j]]. *)
Definition transpose (r c : nat) (m : list (list Z)) : list (list Z) :=
  map (fun j => map (fun i => nth j (nth i m []) 0%Z) (seq 0 r)) (seq 0 c).

Definition make_image (pixels : list (Q * Q)) (coverage : list Z)
           (extent : Q * Q * Q * Q) (size : nat * nat)
  : result (list Q * list Q * list (list Z)) :=
  let '(xmin, ymin, xmax, ymax) := extent in
  let '(nx, ny) := size in
  dx <- div_int (xmax - xmin) (Z.of_nat nx - 1) ;;
  dy <- div_int (ymax - ymin) (Z.of_nat ny - 1) ;;
  let x := linspace (xmin - dx / 2) (xmax + dx / 2) (nx + 1) in
  let y := linspace (ymin - dy / 2) (ymax + dy / 2) (ny + 1) in
  image <- reshape coverage nx ny ;;
  Ok (x, y, transpose nx ny image).

(** ** geom.py *)

Module Geom.
Local Open Scope R_scope.

Definition vec3 : Type := (R * R * R)%type.
Definition mat3 : Type := (vec3 * vec3 * vec3)%type.

Definition radians (x : R) : R := x * (PI / 180).
Definition degrees (x : R) : R := x * (180 / PI).

(** [np.arctan2(y, x)]: the angle of the point (x, y) in (-pi, pi], with
    [arctan2(0, 0) = 0]. *)
Definition arctan2 (y x : R) : R :=
  if Rlt_dec 0 x then atan (y / x)
  else if Rlt_dec x 0 then
    if Rle_dec 0 y then atan (y / x) + PI else atan (y / x) - PI
  else
    if Rlt_dec 0 y then PI / 2
    else if Rlt_dec y 0 then - (PI / 2)
    else 0.

(** One row of [to_vec]. *)
Definition to_vec_row (a : R * R) : vec3 :=
  let theta := PI / 2 - radians (snd a) in
  let phi := radians (fst a) in
  let sp := sin phi in
  let cp := cos phi in
  let st := sin theta in
  let ct := cos theta in
  (st * cp, st * sp, ct).

Definition to_vec (ang : list (R * R)) : list vec3 := map to_vec_row ang.

(** One row of [to_ang]. *)
Definition to_ang_row (v : vec3) : R * R :=
  let '(x, y, z) := v in
  let lon := degrees (arctan2 y x) in
  let r := sqrt (x * x + y * y + z * z) in
  let c := z / r in
  (lon, 90 - degrees (acos c)).

Definition to_ang (vec : list vec3) : list (R * R) := map to_ang_row vec.

Definition dot (a b : vec3) : R :=
  let '(a0, a1, a2) := a in
  let '(b0, b1, b2) := b in
  a0 * b0 + a1 * b1 + a2 * b2.

(** [m.T] of a 3x3 matrix. *)
Definition mat_T (m : mat3) : mat3 :=
  let '((a00, a01, a02), (a10, a11, a12), (a20, a21, a22)) := m in
  ((a00, a10, a20), (a01, a11, a21), (a02, a12, a22)).

(** [np.matmul(v, m)] for one row [v]. *)
Definition vecmat (v : vec3) (m : mat3) : vec3 :=
  let '(c0, c1, c2) := mat_T m in
  (dot v c0, dot v c1, dot v c2).

(** [np.matmul(a, b)] for 3x3 matrices. *)
Definition matmul (a b : mat3) : mat3 :=
  let '(r0, r1, r2) := a in
  (vecmat r0 b, vecmat r1 b, vecmat r2 b).

(** The matrix applied to a column vector. *)
Definition matvec (m : mat3) (v : vec3) : vec3 :=
  let '(r0, r1, r2) := m in
  (dot r0 v, dot r1 v, dot r2 v).

Definition det (m : mat3) : R :=
  let '((a, b, c), (d, e, f), (g, h, i)) := m in
  a * (e * i - f * h) - b * (d * i - f * g) + c * (d * h - e * g).

Definition identity : mat3 := ((1, 0, 0), (0, 1, 0), (0, 0, 1)).

Definition rot_mat (lon lat : R) : mat3 :=
  let c_lon := cos (radians lon) in
  let s_lon := sin (radians lon) in
  let c_lat := cos (radians lat) in
  let s_lat := sin (radians lat) in
  let r_y : mat3 := ((c_lat, 0, - s_lat), (0, 1, 0), (s_lat, 0, c_lat)) in
  let r_z : mat3 := ((c_lon, - s_lon, 0), (s_lon, c_lon, 0), (0, 0, 1)) in
  matmul r_z r_y.

Definition rotate_to (lon lat : R) (ang : list (R * R)) : list (R * R) :=
  let r := rot_mat lon lat in
  let vec := map (fun v => vecmat v (mat_T r)) (to_vec ang) in
  to_ang vec.

(** [skycoverage.make_polygons]. *)
Definition make_polygons (targets : list (R * R)) (focalplane : list (R * R))
  : list (list (R * R)) :=
  map (fun t => rotate_to (fst t) (snd t) focalplane) targets.

End Geom.

(** ** Further functions of the sources *)

(** [tuple(a) != tuple(b)] for two rows of a polygon. *)
Definition row_ne (a b : Q * Q) : bool :=
  negb (Qeq_bool (fst a) (fst b) && Qeq_bool (snd a) (snd b)).

(** [skycoverage.close_polygon]: [polygon[-1]] is the cell at
    [len(polygon) - 1]. *)
Definition close_polygon (polygon : list (Q * Q)) : result (list (Q * Q)) :=
  first <- getitem polygon 0 ;;
  last <- getitem polygon (length polygon - 1) ;;
  if row_ne first last then Ok (polygon ++ [first]) else Ok polygon.

(** [layers.get_layers]: the pixels of the rational grid are read as real
    numbers when they are tested against the placed polygons. *)
Definition get_layers (extent : Q * Q * Q * Q) (size : nat * nat)
           (targets focalplane : list (R * R))
  : result (list Q * list Q * list (list Z)) :=
  let pixels := make_pixels extent size in
  let polygons := Geom.make_polygons targets focalplane in
  cover <- Sky.coverage_all
             (map (fun p => (Q2R (fst p), Q2R (snd p))) pixels) polygons ;;
  make_image pixels cover extent size.

(** *** Command-line values *)

(** [s.split(sep)] for a one-character separator: the fields between the
    separators, at least one. *)
Fixpoint split (sep : Ascii.ascii) (s : String.string) : list String.string :=
  match s with
  | String.EmptyString => [String.EmptyString]
  | String.String c s' =>
      if Ascii.eqb c sep then String.EmptyString :: split sep s'
      else
        match split sep s' with
        | h :: t => String.String c h :: t
        | [] => [String.String c String.EmptyString]
        end
  end.

(** [x or None] for a string: the empty string counts as absent. *)
Definition or_none (x : String.string) : option String.string :=
  match x with
  | String.EmptyString => None
  | _ => Some x
  end.

Section CommandLine.
(** [int(x)] on a string: the integer it denotes, or [ValueError]. *)
Variable int : String.string -> result Z.

Definition int_or_none (x : option String.string) : result (option Z) :=
  match x with
  | Some s => v <- int s ;; Ok (Some v)
  | None => Ok None
  end.

(** [skycoverage.to_slice]; the slice is the triple (start, stop, step). *)
Definition to_slice (string : String.string)
  : result (option Z * option Z * option Z) :=
  let items := split ":"%char string in
  start <- (i0 <- getitem items 0 ;; Ok (or_none i0)) ;;
  stop <- (if (2 <=? length items)%nat
           then i1 <- getitem items 1 ;; Ok (or_none i1)
           else Ok None) ;;
  step <- (if (length items =? 3)%nat
           then i2 <- getitem items 2 ;; Ok (or_none i2)
           else Ok None) ;;
  a <- int_or_none start ;;
  b <- int_or_none stop ;;
  c <- int_or_none step ;;
  Ok (a, b, c).

End CommandLine.

(** [skycoverage.tuple_of(type)]: [type] applied to the fields between the
    commas, from left to right. *)
Definition tuple_of {A : Type} (type : String.string -> result A)
           (string : String.string) : result (list A) :=
  fold_right (fun x acc => v <- type x ;; t <- acc ;; Ok (v :: t))
             (Ok []) (split ","%char string).

(** No character of [s] is [sep]. *)
Fixpoint free (sep : Ascii.ascii) (s : String.string) : bool :=
  match s with
  | String.EmptyString => true
  | String.String c s' => negb (Ascii.eqb c sep) && free sep s'
  end.

(** ** Specification functions *)

Section EdgeSum.
Context {T : Type} `{Scalar T}.

(** What one edge [a -> b] adds to the winding number of [p]. *)
Definition edge_wn (p a b : T * T) : Z :=
  if sleb (Wn.c1 a) (Wn.c1 p) then
    if sltb (Wn.c1 p) (Wn.c1 b) then
      if sltb szero (Wn.is_left a b p) then 1%Z else 0%Z
    else 0%Z
  else
    if sleb (Wn.c1 b) (Wn.c1 p) then
      if sltb (Wn.is_left a b p) szero then (-1)%Z else 0%Z
    else 0%Z.

(** The sum of the contributions of the consecutive edges of [v]. *)
Fixpoint wn_edges (p : T * T) (v : list (T * T)) : Z :=
  match v with
  | a :: t =>
      match t with
      | b :: _ => (edge_wn p a b + wn_edges p t)%Z
      | [] => 0%Z
      end
  | [] => 0%Z
  end.

(** The cell that [coverage] computes for the pixel [p] and the polygon
    [v]. *)
Definition inside (p : T * T) (v : list (T * T)) : Z :=
  int32_of_bool (ne0 (int32 (Wn.wn_value p v))).

(** The number of polygons that cover [p]. *)
Definition count_inside (p : T * T) (polygons : list (list (T * T))) : Z :=
  fold_right (fun v n => (inside p v + n)%Z) 0%Z polygons.

End EdgeSum.

(** The first and the last vertex have equal coordinates. *)
Definition closed (v : list (Q * Q)) : Prop :=
  match v with
  | [] => True
  | a :: _ => (fst a == fst (last v a) /\ snd a == snd (last v a))%Q
  end.

(** The closed axis-parallel rectangle with corners (x0, y0) and (x1, y1),
    counter-clockwise from (x0, y0). *)
Definition rectangle (x0 y0 x1 y1 : Q) : list (Q * Q) :=
  [(x0, y0); (x1, y0); (x1, y1); (x0, y1); (x0, y0)].

Definition translate (t q : Q * Q) : Q * Q :=
  (fst q + fst t, snd q + snd t)%Q.

(** * Properties *)

(** ** Arrays and 32-bit cells *)

Lemma getitem_in_range {A : Type} (l : list A) (i : nat) :
  (i < length l)%nat -> exists a, getitem l i = Ok a.
Proof.
  intros Hi. unfold getitem.
  destruct (nth_error l i) as [a|] eqn:E.
  - now exists a.
  - apply nth_error_None in E. lia.
Qed.

Lemma setitem_app {A : Type} (done rest : list A) (old a : A) :
  setitem (done ++ old :: rest) (length done) a = Ok (done ++ a :: rest).
Proof.
  induction done as [|d done IH]; simpl.
  - reflexivity.
  - rewrite IH. reflexivity.
Qed.

Lemma int32_small (z : Z) :
  (- 2 ^ 31 <= z < 2 ^ 31)%Z -> int32 z = z.
Proof.
  intros Hz. unfold int32.
  rewrite Z.mod_small by lia. lia.
Qed.

Lemma int32_of_bool_01 (b : bool) :
  int32_of_bool b = 0%Z \/ int32_of_bool b = 1%Z.
Proof. destruct b; simpl; auto. Qed.

(** ** The embedding on small inputs *)

Example int32_wraps :
  (int32 (2 ^ 31) = - 2 ^ 31 /\ int32 (2 ^ 32 + 5) = 5 /\ int32 (-1) = -1)%Z.
Proof. repeat split. Qed.

Example linspace_three : map Qred (linspace 0 1 3) = [0; 1 # 2; 1]%Q.
Proof. reflexivity. Qed.

Example linspace_one : map Qred (linspace 3 7 1) = [3]%Q.
Proof. reflexivity. Qed.

Example make_pixels_2x3 :
  map (fun p => (Qred (fst p), Qred (snd p)))
      (make_pixels (0, 0, 1, 2)%Q (2, 3)%nat)
  = [(0, 0); (0, 1); (0, 2); (1, 0); (1, 1); (1, 2)]%Q.
Proof. reflexivity. Qed.

Example make_image_2x3 :
  match make_image [] [1; 2; 3; 4; 5; 6]%Z (0, 0, 1, 2)%Q (2, 3)%nat with
  | Ok (x, y, image) => Ok (map Qred x, map Qred y, image)
  | Raise e => Raise e
  end
  = Ok ([- (1 # 2); 1 # 2; 3 # 2]%Q, [- (1 # 2); 1 # 2; 3 # 2; 5 # 2]%Q,
        [[1; 4]; [2; 5]; [3; 6]]%Z).
Proof. reflexivity. Qed.

Example make_image_wrong_length :
  make_image [] [1; 2; 3]%Z (0, 0, 1, 2)%Q (2, 3)%nat = Raise ValueError.
Proof. reflexivity. Qed.

Example coverage_all_triangle :
  Sky.coverage_all [(0, 0); (1, 1); (0, 1 # 2)]%Q [tests_vQ; tests_vQ]
  = Ok [2; 0; 2]%Z.
Proof. reflexivity. Qed.

(** ** The winding number never raises *)

Section WnTotal.
Context {T : Type} `{Scalar T}.

Lemma wn_body_step (p : T * T) (v : list (T * T)) (wn : Z) (i : nat) :
  (i + 1 < length v)%nat ->
  exists w, Wn.wn_body p v wn i = Ok w /\ (wn - 1 <= w <= wn + 1)%Z.
Proof.
  intros Hi. unfold Wn.wn_body.
  destruct (getitem_in_range v i) as [vi ->]; [lia|].
  destruct (getitem_in_range v (i + 1)) as [vi1 ->]; [lia|].
  simpl.
  repeat match goal with
         | |- context [if ?b then _ else _] => destruct b
         end; eexists; split; try reflexivity; lia.
Qed.

Lemma wn_loop (p : T * T) (v : list (T * T)) (m : nat) :
  forall (start : nat) (acc : Z),
    (m = 0 \/ start + m < length v)%nat ->
    exists w,
      fold_left (fun a i => wn <- a ;; Wn.wn_body p v wn i)
                (seq start m) (Ok acc) = Ok w
      /\ (acc - Z.of_nat m <= w <= acc + Z.of_nat m)%Z.
Proof.
  induction m as [|m IH]; intros start acc Hm.
  - exists acc. simpl. split; [reflexivity | lia].
  - simpl.
    destruct (wn_body_step p v acc start) as (w1 & E1 & B1); [lia|].
    rewrite E1.
    destruct (IH (S start) w1) as (w & E & B); [lia|].
    exists w. split; [exact E | lia].
Qed.

Lemma wn_pnpoly_bound (p : T * T) (v : list (T * T)) :
  exists w, Wn.wn_pnpoly p v = Ok w
            /\ (Z.abs w <= Z.of_nat (length v - 1))%Z.
Proof.
  unfold Wn.wn_pnpoly, range.
  replace (Z.to_nat (Z.of_nat (length v) - 1)) with (length v - 1)%nat by lia.
  destruct (wn_loop p v (length v - 1) 0 0%Z) as (w & E & B); [lia|].
  exists w. split; [exact E | lia].
Qed.

Lemma wn_pnpoly_value (p : T * T) (v : list (T * T)) :
  Wn.wn_pnpoly p v = Ok (Wn.wn_value p v).
Proof.
  unfold Wn.wn_value.
  destruct (wn_pnpoly_bound p v) as (w & -> & _). reflexivity.
Qed.

Lemma wn_value_bound (p : T * T) (v : list (T * T)) :
  (Z.abs (Wn.wn_value p v) <= Z.of_nat (length v - 1))%Z.
Proof.
  destruct (wn_pnpoly_bound p v) as (w & E & B).
  unfold Wn.wn_value. rewrite E. exact B.
Qed.

Lemma wn_store_loop (v : list (T * T)) (ps : list (T * T)) :
  forall done : list Z,
    fold_left
      (fun acc ip =>
         wn <- acc ;;
         w <- Wn.wn_pnpoly (snd ip) v ;;
         setitem wn (fst ip) (int32 w))
      (combine (seq (length done) (length ps)) ps)
      (Ok (done ++ repeat 0%Z (length ps)))
    = Ok (done ++ map (fun p => int32 (Wn.wn_value p v)) ps).
Proof.
  induction ps as [|p ps IH]; intros done.
  - reflexivity.
  - cbn [length seq combine fold_left repeat map bind fst snd].
    rewrite wn_pnpoly_value. cbn [bind].
    rewrite setitem_app.
    specialize (IH (done ++ [int32 (Wn.wn_value p v)])).
    rewrite length_app, Nat.add_1_r in IH. cbn [length] in IH.
    rewrite <- !app_assoc in IH. exact IH.
Qed.

Lemma wn_multipnpoly_map (ps v : list (T * T)) :
  Wn.wn_multipnpoly ps v = Ok (map (fun p => int32 (Wn.wn_value p v)) ps).
Proof.
  unfold Wn.wn_multipnpoly. exact (wn_store_loop v ps []).
Qed.

Lemma coverage_map (pixels polygon : list (T * T)) :
  Sky.coverage pixels polygon
  = Ok (map (fun p => int32_of_bool (ne0 (int32 (Wn.wn_value p polygon))))
            pixels).
Proof.
  unfold Sky.coverage. rewrite wn_multipnpoly_map. cbn [bind].
  rewrite map_map. reflexivity.
Qed.

End WnTotal.

(** ** Accumulation *)

Lemma iadd_same_length (image c : list Z) :
  length c = length image ->
  iadd image c = Ok (map (fun ab => int32 (fst ab + snd ab)) (combine image c)).
Proof.
  intros E. unfold iadd. rewrite E, Nat.eqb_refl. reflexivity.
Qed.

Lemma add_cells_length (image c : list Z) :
  length c = length image ->
  length (map (fun ab => int32 (fst ab + snd ab)) (combine image c))
  = length image.
Proof.
  intros E. rewrite length_map, length_combine. lia.
Qed.

Lemma add_cells_bound (k : Z) (image : list Z) :
  (0 <= k)%Z -> (k + 1 < 2 ^ 31)%Z ->
  Forall (fun a => 0 <= a <= k)%Z image ->
  forall c, Forall cell01 c ->
  Forall (fun a => 0 <= a <= k + 1)%Z
         (map (fun ab => int32 (fst ab + snd ab)) (combine image c)).
Proof.
  intros Hk Hk1 Himg. induction Himg as [|a image Ha _ IH]; intros c Hc.
  - constructor.
  - destruct Hc as [|b c Hb Hc]; [constructor|].
    cbn [combine map fst snd]. constructor.
    + rewrite int32_small; destruct Hb; subst; lia.
    + apply IH, Hc.
Qed.

Section Accumulate.
Context {T : Type} `{Scalar T}.

Lemma coverage_cells (pixels polygon : list (T * T)) :
  exists out, Sky.coverage pixels polygon = Ok out
              /\ length out = length pixels
              /\ Forall cell01 out.
Proof.
  eexists. split; [apply coverage_map|]. split.
  - apply length_map.
  - apply Forall_map, Forall_forall. intros p _.
    apply int32_of_bool_01.
Qed.

Lemma accumulate_length (pixels : list (T * T)) (rest : list (list (T * T))) :
  forall image, length image = length pixels ->
  exists image',
    fold_left
      (fun acc polygon =>
         image <- acc ;; c <- Sky.coverage pixels polygon ;; iadd image c)
      rest (Ok image) = Ok image'
    /\ length image' = length pixels.
Proof.
  induction rest as [|polygon rest IH]; intros image Hlen.
  - exists image. split; [reflexivity | exact Hlen].
  - cbn [fold_left bind].
    destruct (coverage_cells pixels polygon) as (c & -> & Hc & _).
    cbn [bind]. rewrite iadd_same_length by congruence.
    apply IH. rewrite add_cells_length; congruence.
Qed.

Lemma accumulate_bound (pixels : list (T * T)) (rest : list (list (T * T))) :
  forall (image : list Z) (k : Z),
    length image = length pixels ->
    (0 <= k)%Z -> (k + Z.of_nat (length rest) < 2 ^ 31)%Z ->
    Forall (fun a => 0 <= a <= k)%Z image ->
    exists image',
      fold_left
        (fun acc polygon =>
           image <- acc ;; c <- Sky.coverage pixels polygon ;; iadd image c)
        rest (Ok image) = Ok image'
      /\ Forall (fun a => 0 <= a <= k + Z.of_nat (length rest))%Z image'.
Proof.
  induction rest as [|polygon rest IH]; intros image k Hlen Hk Hn Himg.
  - exists image. split; [reflexivity|].
    cbn [length Z.of_nat]. rewrite Z.add_0_r. exact Himg.
  - cbn [fold_left bind].
    destruct (coverage_cells pixels polygon) as (c & -> & Hc & H01).
    cbn [bind]. rewrite iadd_same_length by congruence.
    cbn [length] in Hn |- *. rewrite Nat2Z.inj_succ in Hn |- *.
    destruct (IH (map (fun ab => int32 (fst ab + snd ab)) (combine image c))
                 (k + 1)%Z) as (image' & E & B).
    + rewrite add_cells_length; congruence.
    + lia.
    + lia.
    + apply add_cells_bound; auto; lia.
    + exists image'. split; [exact E|].
      eapply Forall_impl; [|exact B]. cbv beta. intros a Ha. lia.
Qed.

Lemma coverage_all_empty (pixels : list (T * T)) :
  Sky.coverage_all pixels [] = Raise IndexError.
Proof. reflexivity. Qed.

Lemma coverage_all_cons (pixels p0 : list (T * T)) rest :
  exists image, Sky.coverage_all pixels (p0 :: rest) = Ok image
                /\ length image = length pixels.
Proof.
  unfold Sky.coverage_all. cbn [getitem nth_error bind skipn].
  destruct (coverage_cells pixels p0) as (c & -> & Hc & _).
  cbn [bind]. apply accumulate_length, Hc.
Qed.

End Accumulate.

(** ** A polygon with two distinct vertices encloses nothing *)

Lemma is_left_swap (a b p : Q * Q) :
  (Wn.is_left b a p == - Wn.is_left a b p)%Q.
Proof.
  unfold Wn.is_left, Wn.c0, Wn.c1. cbn [ssub smul Scalar_Q]. ring.
Qed.

Lemma Qltb_true (a b : Q) : Qltb a b = true <-> (a < b)%Q.
Proof.
  unfold Qltb. rewrite negb_true_iff, <- not_true_iff_false, Qle_bool_iff.
  split; [apply Qnot_le_lt | apply Qlt_not_le].
Qed.

Lemma Qltb_swap (a b p : Q * Q) :
  Qltb 0 (Wn.is_left a b p) = Qltb (Wn.is_left b a p) 0.
Proof.
  apply eq_true_iff_eq. rewrite !Qltb_true, is_left_swap. lra.
Qed.

Lemma wn_two_vertex (p a b : Q * Q) :
  Wn.wn_pnpoly p (two_vertex a b) = Ok 0%Z.
Proof.
  unfold Wn.wn_pnpoly, two_vertex.
  change (range _) with [0%nat; 1%nat].
  unfold Wn.wn_body.
  cbn [fold_left getitem nth_error Nat.add bind sleb sltb szero Scalar_Q].
  pose proof (Qltb_swap a b p) as E1.
  pose proof (Qltb_swap b a p) as E2.
  unfold Qltb in *.
  destruct (Qle_bool (Wn.c1 a) (Wn.c1 p));
    destruct (Qle_bool (Wn.c1 b) (Wn.c1 p)); cbn [negb bind]; try reflexivity.
  - rewrite E1. destruct (Qle_bool 0 (Wn.is_left b a p)); reflexivity.
  - rewrite E2. destruct (Qle_bool 0 (Wn.is_left a b p)); reflexivity.
Qed.

(** ** The pixel grid and the image *)

Lemma nth_error_tabulate {A : Type} (f : nat -> A) (n i : nat) :
  (i < n)%nat -> nth_error (map f (seq 0 n)) i = Some (f i).
Proof.
  intros Hi. rewrite nth_error_map, nth_error_seq.
  apply Nat.ltb_lt in Hi. rewrite Hi. reflexivity.
Qed.

Lemma nth_tabulate {A : Type} (f : nat -> A) (n i : nat) (d : A) :
  (i < n)%nat -> nth i (map f (seq 0 n)) d = f i.
Proof.
  intros Hi. apply nth_error_nth, nth_error_tabulate, Hi.
Qed.

Lemma length_blocks {A B : Type} (f : A -> list B) (c : nat) (l : list A) :
  (forall a, length (f a) = c) ->
  length (flat_map f l) = (length l * c)%nat.
Proof.
  intros Hf. induction l as [|a l IH]; [reflexivity|].
  cbn [flat_map length]. rewrite length_app, Hf, IH. lia.
Qed.

Lemma nth_error_blocks {A B : Type} (f : A -> list B) (c : nat) (l : list A) :
  (forall a, length (f a) = c) ->
  forall i j, (j < c)%nat ->
    nth_error (flat_map f l) (i * c + j)
    = match nth_error l i with
      | Some a => nth_error (f a) j
      | None => None
      end.
Proof.
  intros Hf. induction l as [|a l IH]; intros i j Hj.
  - cbn [flat_map]. rewrite nth_error_nil. destruct i; reflexivity.
  - cbn [flat_map]. destruct i as [|i].
    + cbn [Nat.mul Nat.add nth_error].
      apply nth_error_app1. rewrite Hf. exact Hj.
    + rewrite nth_error_app2 by (rewrite Hf; lia).
      rewrite Hf. cbn [nth_error].
      replace (S i * c + j - c)%nat with (i * c + j)%nat by lia.
      apply IH, Hj.
Qed.

Lemma flat_map_in_ext {A B : Type} (f g : A -> list B) (l : list A) :
  (forall a, In a l -> f a = g a) -> flat_map f l = flat_map g l.
Proof.
  induction l as [|a l IH]; intros Hfg; [reflexivity|].
  cbn [flat_map]. rewrite Hfg by (left; reflexivity).
  rewrite IH; [reflexivity|]. intros b Hb. apply Hfg. right. exact Hb.
Qed.

Lemma length_set_last (y : list Q) (stop : Q) :
  y <> [] -> length (set_last y stop) = length y.
Proof.
  intros Hy. unfold set_last.
  destruct y as [|a y]; [congruence|].
  rewrite length_app, removelast_firstn_len, length_firstn. cbn [length]. lia.
Qed.

Lemma length_linspace (start stop : Q) (num : nat) :
  length (linspace start stop num) = num.
Proof.
  unfold linspace.
  set (y := map (fun k : Q => (k + start)%Q) _).
  assert (Hy : length y = num).
  { unfold y.
    repeat match goal with
           | |- context [if ?b then _ else _] => destruct b
           end; rewrite !length_map, length_seq; reflexivity. }
  destruct (1 <? num)%nat eqn:E; [|exact Hy].
  rewrite length_set_last; [exact Hy|].
  apply Nat.ltb_lt in E. intros ->. cbn in Hy. lia.
Qed.

Lemma meshgrid_X (x y : list Q) (i j : nat) :
  (j < length y)%nat ->
  nth i (nth j (fst (meshgrid x y)) []) 0%Q = nth i x 0%Q.
Proof.
  intros Hj. cbn [meshgrid fst]. rewrite nth_repeat_lt by exact Hj.
  reflexivity.
Qed.

Lemma meshgrid_Y (x y : list Q) (i j : nat) :
  (i < length x)%nat -> (j < length y)%nat ->
  nth i (nth j (snd (meshgrid x y)) []) 0%Q = nth j y 0%Q.
Proof.
  intros Hi Hj. cbn [meshgrid snd].
  rewrite (nth_error_nth _ _ [] (map_nth_error _ _ _ (nth_error_nth' y 0%Q Hj))).
  apply nth_repeat_lt, Hi.
Qed.

Lemma length_make_pixels (extent : Q * Q * Q * Q) (nx ny : nat) :
  length (make_pixels extent (nx, ny)) = (nx * ny)%nat.
Proof.
  destruct extent as [[[xmin ymin] xmax] ymax]. cbn [make_pixels meshgrid].
  rewrite (length_blocks _ ny).
  - rewrite length_seq. reflexivity.
  - intros a. rewrite length_map, length_seq. reflexivity.
Qed.

Lemma make_pixels_nth (xmin ymin xmax ymax : Q) (nx ny i j : nat) :
  (i < nx)%nat -> (j < ny)%nat ->
  nth_error (make_pixels (xmin, ymin, xmax, ymax) (nx, ny)) (i * ny + j)
  = Some (nth i (linspace xmin xmax nx) 0%Q, nth j (linspace ymin ymax ny) 0%Q).
Proof.
  intros Hi Hj. unfold make_pixels.
  set (x := linspace xmin xmax nx). set (y := linspace ymin ymax ny).
  destruct (meshgrid x y) as [X Y] eqn:E.
  rewrite (nth_error_blocks _ ny).
  - rewrite nth_error_seq. apply Nat.ltb_lt in Hi as Hi'. rewrite Hi'.
    cbn [Nat.add]. rewrite nth_error_tabulate by exact Hj.
    change X with (fst (X, Y)). change Y with (snd (X, Y)) at 2.
    rewrite <- E, meshgrid_X, meshgrid_Y;
      unfold x, y; rewrite ?length_linspace; auto.
  - intros a. rewrite length_map, length_seq. reflexivity.
  - exact Hj.
Qed.

Lemma reshape_cell (cov : list Z) (nx ny i j : nat) :
  (i < nx)%nat -> (j < ny)%nat ->
  nth j (nth i (map (fun i => firstn ny (skipn (i * ny) cov)) (seq 0 nx)) [])
      0%Z
  = nth (i * ny + j) cov 0%Z.
Proof.
  intros Hi Hj. rewrite nth_tabulate by exact Hi.
  rewrite nth_firstn. apply Nat.ltb_lt in Hj. rewrite Hj.
  apply nth_skipn.
Qed.

Lemma flatten_cells (cov : list Z) (nx ny : nat) :
  length cov = (nx * ny)%nat ->
  flat_map (fun i => map (fun j => nth (i * ny + j) cov 0%Z) (seq 0 ny))
           (seq 0 nx)
  = cov.
Proof.
  intros Hlen. apply nth_error_ext. intros n.
  assert (Hb : forall a : nat,
             length (map (fun j => nth (a * ny + j) cov 0%Z) (seq 0 ny)) = ny).
  { intros a. rewrite length_map, length_seq. reflexivity. }
  destruct (Nat.lt_ge_cases n (nx * ny)) as [Hn | Hn].
  - assert (Hny : ny <> 0%nat) by (intros ->; lia).
    pose proof (Nat.div_mod_eq n ny) as Hdm.
    pose proof (Nat.mod_upper_bound n ny Hny) as Hm.
    assert (Hq : (n / ny < nx)%nat).
    { apply Nat.Div0.div_lt_upper_bound. lia. }
    replace n with (n / ny * ny + n mod ny)%nat at 1 by lia.
    rewrite (nth_error_blocks _ ny _ Hb) by exact Hm.
    rewrite nth_error_seq. apply Nat.ltb_lt in Hq. rewrite Hq.
    cbn [Nat.add]. rewrite nth_error_tabulate by exact Hm.
    replace (n / ny * ny + n mod ny)%nat with n by lia.
    symmetry. apply nth_error_nth'. lia.
  - transitivity (@None Z).
    + apply nth_error_None. rewrite (length_blocks _ ny _ Hb), length_seq.
      exact Hn.
    + symmetry. apply nth_error_None. lia.
Qed.

Lemma div_int_nonzero (a : Q) (b : Z) :
  b <> 0%Z -> div_int a b = Ok (a / inject_Z b)%Q.
Proof.
  intros Hb. unfold div_int.
  destruct (b =? 0)%Z eqn:E; [apply Z.eqb_eq in E; contradiction | reflexivity].
Qed.

(** ** Angles, vectors and rotations *)

(** Equality of tuples, component by component. *)
Ltac tuple_eq :=
  repeat match goal with
         | |- (_, _) = (_, _) => apply f_equal2
         end.

Section GeomFacts.
Local Open Scope R_scope.
Import Geom.

Lemma degrees_radians (x : R) : degrees (radians x) = x.
Proof. unfold degrees, radians. field. apply PI_neq0. Qed.

Lemma radians_0 : radians 0 = 0.
Proof. unfold radians. ring. Qed.

Lemma colatitude_north : PI / 2 - radians 90 = 0.
Proof. unfold radians. field. Qed.

Lemma colatitude_south : PI / 2 - radians (-90) = PI.
Proof. unfold radians. field. Qed.

Lemma arctan2_origin : arctan2 0 0 = 0.
Proof.
  unfold arctan2.
  destruct (Rlt_dec 0 0) as [H|_]; [lra|]. reflexivity.
Qed.

Lemma arctan2_down : arctan2 (-1) 0 = - (PI / 2).
Proof.
  unfold arctan2.
  destruct (Rlt_dec 0 0) as [H|_]; [lra|].
  destruct (Rlt_dec 0 (-1)) as [H|_]; [lra|].
  destruct (Rlt_dec (-1) 0) as [_|H]; [reflexivity | lra].
Qed.

Lemma acos_m1 : acos (-1) = PI.
Proof.
  replace (-1) with (Ropp 1) by lra.
  rewrite acos_opp, acos_1. ring.
Qed.

Lemma to_vec_north (lon : R) : to_vec_row (lon, 90) = (0, 0, 1).
Proof.
  unfold to_vec_row. cbn [fst snd].
  rewrite colatitude_north, sin_0, cos_0.
  tuple_eq; ring.
Qed.

Lemma to_vec_south (lon : R) : to_vec_row (lon, -90) = (0, 0, -1).
Proof.
  unfold to_vec_row. cbn [fst snd].
  rewrite colatitude_south, sin_PI, cos_PI.
  tuple_eq; ring.
Qed.

Lemma to_ang_north : to_ang_row (0, 0, 1) = (0, 90).
Proof.
  unfold to_ang_row.
  replace (0 * 0 + 0 * 0 + 1 * 1) with 1 by ring.
  rewrite sqrt_1, arctan2_origin.
  replace (1 / 1) with 1 by field.
  rewrite acos_1. unfold degrees. tuple_eq; field; apply PI_neq0.
Qed.

Lemma to_ang_south : to_ang_row (0, 0, -1) = (0, -90).
Proof.
  unfold to_ang_row.
  replace (0 * 0 + 0 * 0 + -1 * -1) with 1 by ring.
  rewrite sqrt_1, arctan2_origin.
  replace (-1 / 1) with (-1) by field.
  rewrite acos_m1. unfold degrees. tuple_eq; field; apply PI_neq0.
Qed.

Lemma pole_round_trip (lon lat : R) :
  lat = 90 \/ lat = -90 ->
  to_ang (to_vec [(lon, lat)]) = [(0, lat)].
Proof.
  intros [-> | ->]; cbn [to_vec to_ang map].
  - rewrite to_vec_north, to_ang_north. reflexivity.
  - rewrite to_vec_south, to_ang_south. reflexivity.
Qed.

(** The matrix that [rot_mat] multiplies out. *)
Lemma rot_mat_entries (lon lat : R) :
  rot_mat lon lat
  = ((cos (radians lon) * cos (radians lat), - sin (radians lon),
      - (cos (radians lon) * sin (radians lat))),
     (sin (radians lon) * cos (radians lat), cos (radians lon),
      - (sin (radians lon) * sin (radians lat))),
     (sin (radians lat), 0, cos (radians lat))).
Proof.
  unfold rot_mat, matmul, vecmat, mat_T, dot.
  tuple_eq; ring.
Qed.

Lemma rot_mat_origin : rot_mat 0 0 = identity.
Proof.
  rewrite rot_mat_entries, radians_0, sin_0, cos_0. unfold identity.
  tuple_eq; ring.
Qed.

Lemma vecmat_T (m : mat3) (v : vec3) : vecmat v (mat_T m) = matvec m v.
Proof.
  destruct m as [[[[a b] c] [[d e] f]] [[g h] i]], v as [[x y] z].
  unfold vecmat, matvec, mat_T, dot. tuple_eq; ring.
Qed.

Lemma matvec_identity (v : vec3) : matvec identity v = v.
Proof.
  destruct v as [[x y] z]. unfold matvec, identity, dot.
  tuple_eq; ring.
Qed.

Lemma rotate_to_origin (X : list (R * R)) :
  rotate_to 0 0 X = to_ang (to_vec X).
Proof.
  unfold rotate_to. rewrite rot_mat_origin. f_equal.
  rewrite <- (map_id (to_vec X)) at 2.
  apply map_ext. intros v. rewrite vecmat_T. apply matvec_identity.
Qed.

(** [arctan2] recovers the angle of a point given in polar form. *)
Lemma arctan2_right (r phi : R) :
  0 < r -> 0 < cos phi -> - PI < phi <= PI ->
  arctan2 (r * sin phi) (r * cos phi) = phi.
Proof.
  intros Hr Hc [Hlo Hhi]. pose proof PI_RGT_0 as Hpi. unfold arctan2.
  destruct (Rlt_dec 0 (r * cos phi)) as [_|Hx]; [|nra].
  assert (Hphi : - (PI / 2) < phi < PI / 2).
  { split; apply Rnot_le_lt; intros Hb.
    - pose proof (cos_le_0 (- phi)) as Hn. rewrite cos_neg in Hn. lra.
    - pose proof (cos_le_0 phi). lra. }
  replace (r * sin phi / (r * cos phi)) with (tan phi)
    by (unfold tan; field; lra).
  apply atan_tan, Hphi.
Qed.

Lemma arctan2_left (r phi : R) :
  0 < r -> cos phi < 0 -> - PI < phi <= PI ->
  arctan2 (r * sin phi) (r * cos phi) = phi.
Proof.
  intros Hr Hc [Hlo Hhi]. pose proof PI_RGT_0 as Hpi. unfold arctan2.
  destruct (Rlt_dec 0 (r * cos phi)) as [Hx|_]; [nra|].
  destruct (Rlt_dec (r * cos phi) 0) as [_|Hx]; [|nra].
  assert (Hside : phi < - (PI / 2) \/ PI / 2 < phi).
  { destruct (Rle_lt_dec phi (PI / 2)) as [Hu|Hu]; [|right; exact Hu].
    destruct (Rlt_le_dec phi (- (PI / 2))) as [Hl|Hl]; [left; exact Hl|].
    pose proof (cos_ge_0 phi Hl Hu). lra. }
  destruct (Rle_dec 0 (r * sin phi)) as [Hy|Hy].
  - assert (Hs : 0 <= sin phi) by nra.
    assert (Hq : PI / 2 < phi).
    { destruct Hside as [Hl|Hu]; [|exact Hu].
      pose proof (sin_lt_0_var phi). lra. }
    assert (Es : sin phi = - sin (phi - PI)).
    { rewrite <- neg_sin. f_equal. ring. }
    assert (Ec : cos phi = - cos (phi - PI)).
    { rewrite <- neg_cos. f_equal. ring. }
    replace (r * sin phi / (r * cos phi)) with (tan (phi - PI)).
    + rewrite atan_tan; lra.
    + unfold tan. rewrite Es, Ec. field. lra.
  - assert (Hs : sin phi < 0) by nra.
    assert (Hq : phi < - (PI / 2)).
    { destruct Hside as [Hl|Hu]; [exact Hl|].
      pose proof (sin_ge_0 phi). lra. }
    replace (r * sin phi / (r * cos phi)) with (tan (phi + PI)).
    + rewrite atan_tan; lra.
    + unfold tan. rewrite neg_sin, neg_cos. field. lra.
Qed.

Lemma cos_zero_cases (phi : R) :
  cos phi = 0 -> - PI < phi <= PI -> phi = PI / 2 \/ phi = - (PI / 2).
Proof.
  intros Hc [Hlo Hhi]. pose proof PI_RGT_0 as Hpi.
  destruct (Rtotal_order phi (PI / 2)) as [Hlt|[Heq|Hgt]].
  - destruct (Rtotal_order phi (- (PI / 2))) as [Hlt'|[Heq'|Hgt']].
    + pose proof (cos_lt_0 (- phi)) as Hn. rewrite cos_neg in Hn. lra.
    + right. exact Heq'.
    + pose proof (cos_gt_0 phi). lra.
  - left. exact Heq.
  - pose proof (cos_lt_0 phi). lra.
Qed.

Lemma arctan2_axis (r phi : R) :
  0 < r -> cos phi = 0 -> - PI < phi <= PI ->
  arctan2 (r * sin phi) (r * cos phi) = phi.
Proof.
  intros Hr Hc Hphi. unfold arctan2. rewrite Hc, Rmult_0_r.
  destruct (Rlt_dec 0 0) as [Hx|_]; [lra|].
  destruct (cos_zero_cases phi Hc Hphi) as [-> | ->].
  - rewrite sin_PI2.
    destruct (Rlt_dec 0 (r * 1)) as [_|Hy]; [reflexivity | lra].
  - rewrite sin_neg, sin_PI2.
    destruct (Rlt_dec 0 (r * - (1))) as [Hy|_]; [lra|].
    destruct (Rlt_dec (r * - (1)) 0) as [_|Hy]; [reflexivity | lra].
Qed.

Lemma arctan2_polar (r phi : R) :
  0 < r -> - PI < phi <= PI ->
  arctan2 (r * sin phi) (r * cos phi) = phi.
Proof.
  intros Hr Hphi.
  destruct (Rtotal_order (cos phi) 0) as [Hc|[Hc|Hc]].
  - apply arctan2_left; assumption.
  - apply arctan2_axis; assumption.
  - apply arctan2_right; assumption.
Qed.

Lemma unit_norm (theta phi : R) :
  sin theta * cos phi * (sin theta * cos phi)
  + sin theta * sin phi * (sin theta * sin phi)
  + cos theta * cos theta = 1.
Proof.
  pose proof (sin2_cos2 theta) as Ht. pose proof (sin2_cos2 phi) as Hp.
  unfold Rsqr in Ht, Hp.
  replace (sin theta * cos phi * (sin theta * cos phi)
           + sin theta * sin phi * (sin theta * sin phi)
           + cos theta * cos theta)
    with (sin theta * sin theta * (sin phi * sin phi + cos phi * cos phi)
          + cos theta * cos theta) by ring.
  rewrite Hp. lra.
Qed.

Lemma unit_scaled (x m : R) :
  m * (sin x * sin x) + m * (cos x * cos x) = m.
Proof.
  pose proof (sin2_cos2 x) as Hx. unfold Rsqr in Hx.
  rewrite <- Rmult_plus_distr_l, Hx. ring.
Qed.

(** Away from the poles and with the longitude in (-180, 180], converting
    to a vector and back gives the angles back. *)
Lemma round_trip_row (lon lat : R) :
  -180 < lon <= 180 -> -90 < lat < 90 ->
  to_ang_row (to_vec_row (lon, lat)) = (lon, lat).
Proof.
  intros Hlon Hlat. pose proof PI_RGT_0 as Hpi.
  unfold to_vec_row, to_ang_row. cbn [fst snd].
  set (theta := PI / 2 - radians lat). set (phi := radians lon).
  assert (Htheta : 0 < theta < PI).
  { unfold theta, radians. split; nra. }
  assert (Hphi : - PI < phi <= PI).
  { unfold phi, radians. split; nra. }
  rewrite unit_norm, sqrt_1.
  rewrite arctan2_polar by (try apply sin_gt_0; lra).
  replace (cos theta / 1) with (cos theta) by field.
  rewrite acos_cos by lra.
  unfold phi, theta. rewrite degrees_radians.
  tuple_eq; [reflexivity|].
  unfold degrees, radians. field. lra.
Qed.

End GeomFacts.

(** ** Cells count polygons *)

Lemma coverage_all_range :
  forall (T : Type) (S : Scalar T) (pixels : list (T * T))
         (polygons : list (list (T * T))),
    polygons <> [] ->
    (Z.of_nat (length polygons) < 2 ^ 31)%Z ->
    exists image,
      Sky.coverage_all pixels polygons = Ok image
      /\ length image = length pixels
      /\ Forall (fun c => 0 <= c <= Z.of_nat (length polygons))%Z image.
Proof.
  intros T S pixels [|p0 rest] Hne Hn; [congruence|].
  destruct (coverage_all_cons pixels p0 rest) as (image & E & Hlen).
  exists image. split; [exact E|]. split; [exact Hlen|].
  revert E. unfold Sky.coverage_all. cbn [getitem nth_error bind skipn].
  destruct (coverage_cells pixels p0) as (c & -> & Hc & H01). cbn [bind].
  cbn [length] in Hn. rewrite Nat2Z.inj_succ in Hn.
  destruct (accumulate_bound pixels rest c 1%Z) as (image' & E' & B);
    [exact Hc | lia | lia | |].
  - eapply Forall_impl; [|exact H01]. intros a [-> | ->]; lia.
  - rewrite E'. intros [= ->].
    cbn [length]. rewrite Nat2Z.inj_succ.
    eapply Forall_impl; [|exact B]. cbv beta. intros a Ha. lia.
Qed.

(** The same for the footprints placed by [make_polygons]. *)
Corollary placed_coverage_range (pixels : list (R * R))
          (targets focalplane : list (R * R)) :
  targets <> [] ->
  (Z.of_nat (length targets) < 2 ^ 31)%Z ->
  exists image,
    Sky.coverage_all pixels (Geom.make_polygons targets focalplane) = Ok image
    /\ length image = length pixels
    /\ Forall (fun c => 0 <= c <= Z.of_nat (length targets))%Z image.
Proof.
  intros Hne Hn.
  destruct (coverage_all_range R Scalar_R pixels
              (Geom.make_polygons targets focalplane))
    as (image & E & Hlen & B).
  - unfold Geom.make_polygons. destruct targets; [congruence | discriminate].
  - unfold Geom.make_polygons. rewrite length_map. exact Hn.
  - exists image. unfold Geom.make_polygons in B. rewrite length_map in B.
    auto.
Qed.

(** * The claims *)

(** C1 (as found in the code). [coverage_all] seeds its accumulator with
    [coverage(pixels, polygons[0])]: over an empty polygon list it raises
    [IndexError] for every pixel list, and over a non-empty list it returns
    an array of length [len(pixels)]. *)
Theorem C1_coverage_all_empty_raises :
  forall (T : Type) (S : Scalar T) (pixels : list (T * T)),
    Sky.coverage_all pixels [] = Raise IndexError
    /\ (forall polygons, polygons <> [] ->
        exists image, Sky.coverage_all pixels polygons = Ok image
                      /\ length image = length pixels).
Proof.
  intros T S pixels. split.
  - apply coverage_all_empty.
  - intros [|p0 rest] Hne; [congruence|]. apply coverage_all_cons.
Qed.

Lemma C1_witness :
  [tests_vQ] <> []
  /\ exists image, Sky.coverage_all [(0, 0)%Q; (1, 1)%Q] [tests_vQ] = Ok image
                   /\ length image = 2%nat.
Proof.
  split; [discriminate|].
  apply (proj2 (C1_coverage_all_empty_raises Q Scalar_Q [(0, 0)%Q; (1, 1)%Q])).
  discriminate.
Defined.

(** C1, the claim as written fails: with one pixel and no polygon the call
    raises [IndexError] instead of returning the all-zero array [[0]]. *)
Lemma C1_counterexample :
  Sky.coverage_all [(0, 0)%Q] [] = Raise IndexError
  /\ Sky.coverage_all [(0, 0)%Q] [] <> Ok (repeat 0%Z 1).
Proof. split; [reflexivity | discriminate]. Qed.

(** C4 (as found in the code). The coverage computation validates nothing
    and never raises on a polygon: for coordinates of any scalar type, every
    pixel list and every polygon, whatever its vertices and also with fewer
    than 3 distinct ones, [coverage] returns an array of 0/1 cells of length
    [len(pixels)]. *)
Theorem C4_coverage_never_raises :
  forall (T : Type) (S : Scalar T) (pixels polygon : list (T * T)),
    exists out, Sky.coverage pixels polygon = Ok out
                /\ length out = length pixels
                /\ Forall cell01 out.
Proof. intros T S pixels polygon. apply coverage_cells. Qed.

(** C4, the claim as written fails: the polygon [(0,0), (1,1), (0,0)] has
    two distinct vertices, and the coverage computation returns zero
    coverage for it instead of raising. *)
Lemma C4_counterexample :
  Sky.coverage_all [(0, 0)%Q; (1 # 2, 1 # 2)%Q; (1, 0)%Q] [degenerate_polygon]
  = Ok [0; 0; 0]%Z.
Proof. vm_compute. reflexivity. Qed.

(** C5. For every sequence of query points and every polygon whose winding
    numbers fit a 32-bit cell (at most 2^31 vertices), [coverage] returns one
    cell per point, and cell [i] is 1 when the winding number of point [i]
    is nonzero and 0 when it is zero. *)
Theorem C5_batch_membership :
  forall (T : Type) (S : Scalar T) (ps v : list (T * T)),
    (Z.of_nat (length v) <= 2 ^ 31)%Z ->
    exists out,
      Sky.coverage ps v = Ok out
      /\ length out = length ps
      /\ forall i p, nth_error ps i = Some p ->
           exists w, Wn.wn_pnpoly p v = Ok w
                     /\ nth_error out i = Some (if (w =? 0)%Z then 0 else 1)%Z.
Proof.
  intros T S ps v Hv. eexists. split; [apply coverage_map|]. split.
  - apply length_map.
  - intros i p Hp. exists (Wn.wn_value p v). split.
    + apply wn_pnpoly_value.
    + rewrite nth_error_map, Hp. cbn [option_map]. f_equal.
      pose proof (wn_value_bound p v) as B.
      rewrite int32_small by lia.
      unfold ne0. destruct (Wn.wn_value p v =? 0)%Z; reflexivity.
Qed.

Lemma C5_witness :
  exists out,
    Sky.coverage [(0, 0)%Z; (1, 1)%Z] tests_v = Ok out
    /\ length out = 2%nat
    /\ forall i p, nth_error [(0, 0)%Z; (1, 1)%Z] i = Some p ->
         exists w, Wn.wn_pnpoly p tests_v = Ok w
                   /\ nth_error out i = Some (if (w =? 0)%Z then 0 else 1)%Z.
Proof.
  apply (C5_batch_membership Z Scalar_int64 [(0, 0)%Z; (1, 1)%Z] tests_v).
  vm_compute. discriminate.
Defined.

(** C8. For every pixel list and every non-empty list of [n] polygons
    (with [n] in the range of a 32-bit cell), [coverage_all] returns an array
    of length [len(pixels)] whose every cell [c] satisfies [0 <= c <= n]. *)
Theorem C8_coverage_all_bounds :
  forall (T : Type) (S : Scalar T) (pixels : list (T * T))
         (polygons : list (list (T * T))),
    polygons <> [] ->
    (Z.of_nat (length polygons) < 2 ^ 31)%Z ->
    exists image,
      Sky.coverage_all pixels polygons = Ok image
      /\ length image = length pixels
      /\ Forall (fun c => 0 <= c <= Z.of_nat (length polygons))%Z image.
Proof. exact @coverage_all_range. Qed.

Lemma C8_witness :
  exists image,
    Sky.coverage_all [(0, 0)%Q; (1, 1)%Q] [tests_vQ; tests_vQ] = Ok image
    /\ length image = 2%nat
    /\ Forall (fun c => 0 <= c <= 2)%Z image.
Proof.
  apply (C8_coverage_all_bounds Q Scalar_Q [(0, 0)%Q; (1, 1)%Q]
                                [tests_vQ; tests_vQ]).
  - discriminate.
  - vm_compute. reflexivity.
Defined.

(** C9. For the closed triangle [(-1,-1), (1,-1), (0,1), (-1,-1)] of
    [wn.tests], [wn_pnpoly] returns a nonzero winding number (1) for the
    point (0,0) and the winding number 0 for the point (1,1), with integer
    and with fractional coordinates alike. *)
Theorem C9_triangle :
  (exists w, Wn.wn_pnpoly (0, 0)%Z tests_v = Ok w /\ w = 1%Z /\ w <> 0%Z)
  /\ Wn.wn_pnpoly (1, 1)%Z tests_v = Ok 0%Z
  /\ (exists w, Wn.wn_pnpoly (0, 0)%Q tests_vQ = Ok w /\ w = 1%Z /\ w <> 0%Z)
  /\ Wn.wn_pnpoly (1, 1)%Q tests_vQ = Ok 0%Z.
Proof.
  repeat split; try (exists 1%Z; repeat split); try discriminate;
    vm_compute; reflexivity.
Qed.

(** C6. For every extent, every size [(nx, ny)] with [nx >= 2] and
    [ny >= 2] and every coverage vector of length [nx * ny], [make_image]
    applied to the pixels of [make_pixels] returns an image with
    [image[j][i] = coverage[i * ny + j]] for all [i < nx], [j < ny], where
    [i * ny + j] is the position at which [make_pixels] lists the point
    [(x_i, y_j)]; reading the image in that order gives back [coverage]. *)
Theorem C6_grid_round_trip :
  forall (xmin ymin xmax ymax : Q) (nx ny : nat) (coverage : list Z),
    (2 <= nx)%nat -> (2 <= ny)%nat ->
    length coverage = (nx * ny)%nat ->
    let extent := (xmin, ymin, xmax, ymax) in
    let pixels := make_pixels extent (nx, ny) in
    exists x y image,
      make_image pixels coverage extent (nx, ny) = Ok (x, y, image)
      /\ (forall i j, (i < nx)%nat -> (j < ny)%nat ->
            nth_error pixels (i * ny + j)
            = Some (nth i (linspace xmin xmax nx) 0%Q,
                    nth j (linspace ymin ymax ny) 0%Q)
            /\ exists row,
                nth_error image j = Some row
                /\ nth_error row i = nth_error coverage (i * ny + j))
      /\ flat_map (fun i => map (fun j => nth i (nth j image []) 0%Z) (seq 0 ny))
                  (seq 0 nx)
         = coverage.
Proof.
  intros xmin ymin xmax ymax nx ny coverage Hnx Hny Hlen extent pixels.
  unfold make_image, extent.
  rewrite !div_int_nonzero by lia. cbn [bind].
  unfold reshape. apply Nat.eqb_eq in Hlen as Hlen'. rewrite Hlen'. cbn [bind].
  do 3 eexists. split; [reflexivity|]. split.
  - intros i j Hi Hj. split; [apply make_pixels_nth; assumption|].
    unfold transpose. eexists. split.
    + apply nth_error_tabulate, Hj.
    + rewrite nth_error_tabulate by exact Hi.
      rewrite reshape_cell by assumption.
      symmetry. apply nth_error_nth'. nia.
  - etransitivity; [|exact (flatten_cells coverage nx ny Hlen)].
    apply flat_map_in_ext. intros i Hi. apply in_seq in Hi.
    apply map_ext_in. intros j Hj. apply in_seq in Hj.
    unfold transpose.
    rewrite (nth_tabulate _ ny j []) by lia.
    rewrite nth_tabulate by lia.
    apply reshape_cell; lia.
Qed.

Lemma C6_witness :
  exists x y image,
    make_image (make_pixels (0, 0, 1, 2)%Q (2, 3)%nat) [1; 2; 3; 4; 5; 6]%Z
               (0, 0, 1, 2)%Q (2, 3)%nat
    = Ok (x, y, image)
    /\ (forall i j, (i < 2)%nat -> (j < 3)%nat ->
          nth_error (make_pixels (0, 0, 1, 2)%Q (2, 3)%nat) (i * 3 + j)
          = Some (nth i (linspace 0 1 2) 0%Q, nth j (linspace 0 2 3) 0%Q)
          /\ exists row,
              nth_error image j = Some row
              /\ nth_error row i = nth_error [1; 2; 3; 4; 5; 6]%Z (i * 3 + j))
    /\ flat_map (fun i => map (fun j => nth i (nth j image []) 0%Z) (seq 0 3))
                (seq 0 2)
       = [1; 2; 3; 4; 5; 6]%Z.
Proof.
  apply (C6_grid_round_trip 0 0 1 2 2 3 [1; 2; 3; 4; 5; 6]%Z).
  - lia.
  - lia.
  - reflexivity.
Defined.

(** C10 (as found in the code). [make_image] divides by [nx - 1] and
    [ny - 1]: it raises [ZeroDivisionError] exactly when [nx = 1] or
    [ny = 1]. For every other size, [nx = 0] or [ny = 0] included, the
    division goes through: the call returns edge arrays of lengths [nx + 1]
    and [ny + 1] when [len(coverage) = nx * ny], and raises [ValueError]
    when it is not. *)
Theorem C10_make_image_division :
  forall (pixels : list (Q * Q)) (coverage : list Z)
         (extent : Q * Q * Q * Q) (nx ny : nat),
    (make_image pixels coverage extent (nx, ny) = Raise ZeroDivisionError
     <-> nx = 1%nat \/ ny = 1%nat)
    /\ (nx <> 1%nat -> ny <> 1%nat -> length coverage = (nx * ny)%nat ->
        exists x y image,
          make_image pixels coverage extent (nx, ny) = Ok (x, y, image)
          /\ length x = (nx + 1)%nat
          /\ length y = (ny + 1)%nat)
    /\ (nx <> 1%nat -> ny <> 1%nat -> length coverage <> (nx * ny)%nat ->
        make_image pixels coverage extent (nx, ny) = Raise ValueError).
Proof.
  intros pixels coverage [[[xmin ymin] xmax] ymax] nx ny.
  unfold make_image, div_int.
  destruct (Z.of_nat nx - 1 =? 0)%Z eqn:Ex.
  { apply Z.eqb_eq in Ex. cbn [bind]. split; [|split].
    - split; [intros _; left; lia | reflexivity].
    - intros Hnx. lia.
    - intros Hnx. lia. }
  apply Z.eqb_neq in Ex. cbn [bind].
  destruct (Z.of_nat ny - 1 =? 0)%Z eqn:Ey.
  { apply Z.eqb_eq in Ey. cbn [bind]. split; [|split].
    - split; [intros _; right; lia | reflexivity].
    - intros _ Hny. lia.
    - intros _ Hny. lia. }
  apply Z.eqb_neq in Ey. cbn [bind]. unfold reshape.
  destruct (length coverage =? nx * ny)%nat eqn:E; cbn [bind].
  - apply Nat.eqb_eq in E. split; [|split].
    + split; [discriminate | intros [H | H]; lia].
    + intros _ _ _. do 3 eexists. split; [reflexivity|].
      rewrite !length_linspace. split; reflexivity.
    + intros _ _ Hlen. contradiction.
  - apply Nat.eqb_neq in E. split; [|split].
    + split; [discriminate | intros [H | H]; lia].
    + intros _ _ Hlen. contradiction.
    + intros _ _ _. reflexivity.
Qed.

Lemma C10_witness :
  make_image [(0, 0)%Q] [1%Z] (0, 0, 1, 1)%Q (1, 1)%nat
  = Raise ZeroDivisionError
  /\ (exists x y image,
         make_image [] [1; 2; 3; 4]%Z (0, 0, 1, 1)%Q (2, 2)%nat
         = Ok (x, y, image)
         /\ length x = 3%nat /\ length y = 3%nat)
  /\ make_image [] [1; 2; 3]%Z (0, 0, 1, 1)%Q (2, 2)%nat = Raise ValueError.
Proof.
  split; [|split].
  - apply (proj1 (C10_make_image_division [(0, 0)%Q] [1%Z]
                    (0, 0, 1, 1)%Q 1 1)).
    left. reflexivity.
  - apply (proj1 (proj2 (C10_make_image_division [] [1; 2; 3; 4]%Z
                           (0, 0, 1, 1)%Q 2 2))); cbn; lia.
  - apply (proj2 (proj2 (C10_make_image_division [] [1; 2; 3]%Z
                           (0, 0, 1, 1)%Q 2 2))); cbn; lia.
Defined.

(** C10, the claim as written fails twice. With the size (0, 2) and an
    empty coverage vector the call is defined: nothing is divided by zero
    and it returns edge arrays of 1 and 3 values. With the size (2, 2) and a
    coverage vector of 3 cells it returns no edge arrays: it raises
    [ValueError]. *)
Lemma C10_counterexample :
  (exists x y image,
      make_image [] [] (0, 0, 1, 1)%Q (0, 2)%nat = Ok (x, y, image)
      /\ length x = 1%nat /\ length y = 3%nat)
  /\ make_image [] [1; 2; 3]%Z (0, 0, 1, 1)%Q (2, 2)%nat = Raise ValueError.
Proof.
  split; [|reflexivity].
  do 3 eexists. split; [reflexivity|]. split; reflexivity.
Qed.

Section GeomClaims.
Local Open Scope R_scope.
Import Geom.

(** C2 (as found in the code). At the north pole the vector of [to_vec] has
    x = y = 0 whatever the longitude, and [to_ang] reads the longitude of
    such a vector as [arctan2(0, 0) = 0]: for every [lon] strictly between
    -90 and 90, the round trip of [(lon, 90)] returns [(0, 90)], so the
    returned longitude is the input longitude only when [lon = 0]. Nothing
    is stated for the other longitudes or for [lat = -90]: there the result
    of the code hangs on the sign of a zero and on the rounding of pi, which
    the real numbers of this embedding do not carry. *)
Theorem C2_pole_longitude_reset :
  forall lon : R,
    -90 < lon < 90 ->
    to_ang (to_vec [(lon, 90)]) = [(0, 90)]
    /\ (map fst (to_ang (to_vec [(lon, 90)])) = [lon] <-> lon = 0).
Proof.
  intros lon _.
  rewrite pole_round_trip by (left; reflexivity). cbn [map fst].
  split; [reflexivity|]. split.
  - intros [= E]. symmetry. exact E.
  - intros ->. reflexivity.
Qed.

Lemma C2_witness :
  to_ang (to_vec [(10, 90)]) = [(0, 90)]
  /\ (map fst (to_ang (to_vec [(10, 90)])) = [10] <-> 10 = 0).
Proof. apply (C2_pole_longitude_reset 10). lra. Defined.

(** C2, the claim as written fails: the round trip of the pole direction
    (10, 90) returns the longitude 0, not the input longitude 10. *)
Lemma C2_counterexample :
  map fst (to_ang (to_vec [(10, 90)])) = [0]
  /\ map fst (to_ang (to_vec [(10, 90)])) <> [10].
Proof.
  rewrite pole_round_trip by (left; reflexivity). cbn [map fst].
  split; [reflexivity|]. intros [= E]. lra.
Qed.

(** C3 (as found in the code). For every [lon] and [lat], [rot_mat(lon, lat)]
    is a rotation matrix (its product with its transpose is the identity and
    its determinant is 1) that maps the unit vector (1, 0, 0), the direction
    of the origin [lon = 0, lat = 0], to the unit vector of the point at
    [(lon, lat)]: applied to (1, 0, 0), in the column form and in the
    row-times-transpose form that [rotate_to] uses, it gives
    [to_vec([[lon, lat]])]. *)
Theorem C3_rot_mat_maps_origin :
  forall lon lat : R,
    to_vec [(0, 0)] = [(1, 0, 0)]
    /\ [matvec (rot_mat lon lat) (1, 0, 0)] = to_vec [(lon, lat)]
    /\ map (fun v => vecmat v (mat_T (rot_mat lon lat))) (to_vec [(0, 0)])
       = to_vec [(lon, lat)]
    /\ matmul (rot_mat lon lat) (mat_T (rot_mat lon lat)) = identity
    /\ det (rot_mat lon lat) = 1.
Proof.
  intros lon lat.
  assert (E0 : to_vec [(0, 0)] = [(1, 0, 0)]).
  { cbn [to_vec map]. unfold to_vec_row. cbn [fst snd].
    rewrite radians_0, Rminus_0_r, sin_PI2, cos_PI2, sin_0, cos_0.
    f_equal. tuple_eq; ring. }
  assert (E1 : [matvec (rot_mat lon lat) (1, 0, 0)] = to_vec [(lon, lat)]).
  { cbn [to_vec map]. f_equal. rewrite rot_mat_entries.
    unfold matvec, dot, to_vec_row. cbn [fst snd].
    rewrite sin_shift, cos_shift. tuple_eq; ring. }
  repeat split.
  - exact E0.
  - exact E1.
  - rewrite E0. cbn [map]. rewrite vecmat_T. exact E1.
  - rewrite rot_mat_entries. unfold matmul, vecmat, mat_T, dot, identity.
    pose proof (sin2_cos2 (radians lon)) as Hlon.
    pose proof (unit_scaled (radians lat)) as Hlat.
    pose proof (Hlat (cos (radians lon) * cos (radians lon))).
    pose proof (Hlat (sin (radians lon) * sin (radians lon))).
    pose proof (Hlat (cos (radians lon) * sin (radians lon))).
    pose proof (Hlat 1).
    unfold Rsqr in Hlon.
    tuple_eq; nra.
  - rewrite rot_mat_entries. unfold det.
    pose proof (sin2_cos2 (radians lon)) as Hlon.
    pose proof (unit_scaled (radians lat)) as Hlat.
    pose proof (Hlat (cos (radians lon) * cos (radians lon))).
    pose proof (Hlat (sin (radians lon) * sin (radians lon))).
    unfold Rsqr in Hlon.
    nra.
Qed.

(** C3, the claim as written fails: at [lon = 0, lat = 0] the matrix is the
    identity and leaves (0, 0, 1) where it is, while the point at (0, 0) has
    the unit vector (1, 0, 0). *)
Lemma C3_counterexample :
  [matvec (rot_mat 0 0) (0, 0, 1)] = [(0, 0, 1)]
  /\ to_vec [(0, 0)] = [(1, 0, 0)]
  /\ [matvec (rot_mat 0 0) (0, 0, 1)] <> to_vec [(0, 0)].
Proof.
  assert (E0 : to_vec [(0, 0)] = [(1, 0, 0)]).
  { cbn [to_vec map]. unfold to_vec_row. cbn [fst snd].
    rewrite radians_0, Rminus_0_r, sin_PI2, cos_PI2, sin_0, cos_0.
    f_equal. tuple_eq; ring. }
  rewrite rot_mat_origin, matvec_identity, E0.
  repeat split. intros [= E _]. lra.
Qed.

(** C7 (as found in the code). For every polygon [X] whose vertices have
    their longitude in (-180, 180] and their latitude strictly between -90
    and 90, [rotate_to(0, 0, X)] equals [X] in exact real arithmetic. *)
Theorem C7_rotate_to_origin_identity :
  forall X : list (R * R),
    Forall (fun a => -180 < fst a <= 180 /\ -90 < snd a < 90) X ->
    rotate_to 0 0 X = X.
Proof.
  intros X HX. rewrite rotate_to_origin. unfold to_ang, to_vec.
  rewrite map_map.
  induction HX as [|[lon lat] X [Hlon Hlat] _ IH]; [reflexivity|].
  cbn [map fst snd] in *. rewrite IH, round_trip_row by assumption.
  reflexivity.
Qed.

Lemma C7_witness : rotate_to 0 0 [(10, 20); (-30, 45)] = [(10, 20); (-30, 45)].
Proof.
  apply (C7_rotate_to_origin_identity [(10, 20); (-30, 45)]).
  repeat constructor; cbn [fst snd]; lra.
Defined.

(** C7, the claim as written fails: a vertex with longitude 270 comes back
    with longitude -90, and a vertex at the pole (10, 90) comes back with
    longitude 0. *)
Lemma C7_counterexample :
  rotate_to 0 0 [(270, 0)] = [(-90, 0)]
  /\ rotate_to 0 0 [(270, 0)] <> [(270, 0)]
  /\ rotate_to 0 0 [(10, 90)] = [(0, 90)]
  /\ rotate_to 0 0 [(10, 90)] <> [(10, 90)].
Proof.
  assert (E1 : rotate_to 0 0 [(270, 0)] = [(-90, 0)]).
  { rewrite rotate_to_origin. cbn [to_vec to_ang map].
    unfold to_vec_row. cbn [fst snd].
    rewrite radians_0, Rminus_0_r, sin_PI2, cos_PI2.
    replace (radians 270) with (3 * (PI / 2)) by (unfold radians; field).
    rewrite sin_3PI2, cos_3PI2. unfold to_ang_row.
    replace (1 * 0) with 0 by ring. replace (1 * -1) with (-1) by ring.
    replace (0 * 0 + -1 * -1 + 0 * 0) with 1 by ring.
    rewrite sqrt_1, arctan2_down.
    replace (0 / 1) with 0 by field. rewrite acos_0.
    unfold degrees. f_equal. tuple_eq; field; apply PI_neq0. }
  assert (E2 : rotate_to 0 0 [(10, 90)] = [(0, 90)]).
  { rewrite rotate_to_origin. apply pole_round_trip. left. reflexivity. }
  rewrite E1, E2. repeat split.
  - intros [= E]. lra.
  - intros [= E]. lra.
Qed.

End GeomClaims.

(** * Further properties *)

(** ** The winding number as a sum over the edges *)

Section EdgeSumFacts.
Context {T : Type} `{Scalar T}.

Lemma wn_body_edge (p a b : T * T) (t : list (T * T)) (wn : Z) :
  Wn.wn_body p (a :: b :: t) wn 0 = Ok (wn + edge_wn p a b)%Z.
Proof.
  unfold Wn.wn_body, edge_wn. cbn [getitem nth_error Nat.add bind].
  repeat match goal with
         | |- context [if ?c then _ else _] => destruct c
         end; f_equal; lia.
Qed.

Lemma wn_body_shift (p a : T * T) (v : list (T * T)) (wn : Z) (i : nat) :
  Wn.wn_body p (a :: v) wn (S i) = Wn.wn_body p v wn i.
Proof. reflexivity. Qed.

Lemma wn_fold_shift (p a : T * T) (v : list (T * T)) (m : nat) :
  forall (s : nat) (acc : result Z),
    fold_left (fun r i => wn <- r ;; Wn.wn_body p (a :: v) wn i)
              (seq (S s) m) acc
    = fold_left (fun r i => wn <- r ;; Wn.wn_body p v wn i) (seq s m) acc.
Proof.
  induction m as [|m IH]; intros s acc; [reflexivity|].
  cbn [seq fold_left]. rewrite IH. f_equal.
Qed.

Lemma wn_fold_edges (p : T * T) (v : list (T * T)) :
  forall acc : Z,
    fold_left (fun r i => wn <- r ;; Wn.wn_body p v wn i)
              (seq 0 (length v - 1)) (Ok acc)
    = Ok (acc + wn_edges p v)%Z.
Proof.
  induction v as [|a t IH]; intros acc.
  - cbn. f_equal. lia.
  - destruct t as [|b t'].
    + cbn. f_equal. lia.
    + replace (length (a :: b :: t') - 1)%nat with (S (length (b :: t') - 1))
        by (cbn [length]; lia).
      cbn [seq fold_left bind]. rewrite wn_body_edge, wn_fold_shift, IH.
      cbn [wn_edges]. f_equal. lia.
Qed.

Lemma wn_pnpoly_edges (p : T * T) (v : list (T * T)) :
  Wn.wn_pnpoly p v = Ok (wn_edges p v).
Proof.
  unfold Wn.wn_pnpoly, range.
  replace (Z.to_nat (Z.of_nat (length v) - 1)) with (length v - 1)%nat by lia.
  rewrite wn_fold_edges. reflexivity.
Qed.

Lemma wn_value_edges (p : T * T) (v : list (T * T)) :
  Wn.wn_value p v = wn_edges p v.
Proof. unfold Wn.wn_value. rewrite wn_pnpoly_edges. reflexivity. Qed.

Lemma wn_edges_app_one (p y : T * T) (l : list (T * T)) :
  wn_edges p (l ++ [y])
  = (wn_edges p l
     + match l with
       | [] => 0
       | _ :: _ => edge_wn p (last l y) y
       end)%Z.
Proof.
  induction l as [|a t IH]; [reflexivity|].
  destruct t as [|b t'].
  - cbn. lia.
  - change ((a :: b :: t') ++ [y]) with (a :: (b :: t') ++ [y]).
    change (wn_edges p (a :: (b :: t') ++ [y]))
      with (edge_wn p a b + wn_edges p ((b :: t') ++ [y]))%Z.
    rewrite IH.
    change (last (a :: b :: t') y) with (last (b :: t') y).
    cbn [wn_edges]. lia.
Qed.

Lemma wn_edges_all_zero (p : T * T) (v : list (T * T)) :
  (forall a b, In a v -> In b v -> edge_wn p a b = 0%Z) ->
  wn_edges p v = 0%Z.
Proof.
  induction v as [|a t IH]; intros Hz; [reflexivity|].
  destruct t as [|b t']; [reflexivity|].
  change (wn_edges p (a :: b :: t'))
    with (edge_wn p a b + wn_edges p (b :: t'))%Z.
  rewrite Hz, IH; [reflexivity | | left; reflexivity | right; left; reflexivity].
  intros x y Hx Hy. apply Hz; right; assumption.
Qed.

End EdgeSumFacts.

(** ** Exact coordinates: tests as propositions *)

Lemma Qle_bool_false (a b : Q) : Qle_bool a b = false -> (b < a)%Q.
Proof.
  intros E. apply Qnot_le_lt. intros Hle.
  apply Qle_bool_iff in Hle. congruence.
Qed.

Lemma Qltb_false (a b : Q) : Qltb a b = false -> (b <= a)%Q.
Proof.
  unfold Qltb. intros E. apply negb_false_iff in E.
  apply Qle_bool_iff, E.
Qed.

(** Case analysis on every comparison of the goal. *)
Ltac q_cases :=
  repeat match goal with
         | |- context [Qle_bool ?a ?b] =>
             let E := fresh "E" in
             destruct (Qle_bool a b) eqn:E;
             [apply Qle_bool_iff in E | apply Qle_bool_false in E]
         | |- context [Qltb ?a ?b] =>
             let E := fresh "E" in
             destruct (Qltb a b) eqn:E;
             [apply Qltb_true in E | apply Qltb_false in E]
         end.

(** Unfolding of one edge over [Q]. *)
Ltac q_edge :=
  unfold edge_wn, Wn.is_left, Wn.c0, Wn.c1;
  cbn [sleb sltb szero ssub smul Scalar_Q fst snd].

Lemma edge_wn_reverse (p a b : Q * Q) :
  edge_wn p b a = (- edge_wn p a b)%Z.
Proof.
  destruct p as [px py], a as [ax ay], b as [bx b_y].
  q_edge. q_cases; try reflexivity; exfalso; nra.
Qed.

Lemma wn_edges_rev (p : Q * Q) (v : list (Q * Q)) :
  wn_edges p (rev v) = (- wn_edges p v)%Z.
Proof.
  induction v as [|a t IH]; [reflexivity|].
  cbn [rev]. rewrite wn_edges_app_one, IH.
  destruct t as [|b t']; [reflexivity|].
  cbn [rev]. destruct (rev t' ++ [b]) as [|c l] eqn:E.
  - destruct (rev t'); discriminate.
  - rewrite <- E, last_last, edge_wn_reverse.
    change (wn_edges p (a :: b :: t'))
      with (edge_wn p a b + wn_edges p (b :: t'))%Z.
    lia.
Qed.

Lemma ne0_int32_opp (w : Z) : ne0 (int32 (- w)) = ne0 (int32 w).
Proof.
  unfold ne0, int32.
  change (2 ^ 31)%Z with 2147483648%Z. change (2 ^ 32)%Z with 4294967296%Z.
  destruct ((w + 2147483648) mod 4294967296 - 2147483648 =? 0)%Z eqn:E1;
    destruct ((- w + 2147483648) mod 4294967296 - 2147483648 =? 0)%Z eqn:E2;
    try reflexivity;
    rewrite ?Z.eqb_eq, ?Z.eqb_neq in E1, E2; exfalso;
    Z.div_mod_to_equations; lia.
Qed.

(** The bit of a vertex that lies at or below the height of [p]. *)
Lemma edge_wn_left (p a b : Q * Q) :
  (fst p < fst a)%Q -> (fst p < fst b)%Q ->
  edge_wn p a b
  = ((if Qle_bool (snd a) (snd p) then 1 else 0)
     - (if Qle_bool (snd b) (snd p) then 1 else 0))%Z.
Proof.
  destruct p as [px py], a as [ax ay], b as [bx b_y]. cbn [fst snd].
  intros Ha Hb. q_edge. q_cases; try reflexivity; exfalso; nra.
Qed.

Lemma edge_wn_right (p a b : Q * Q) :
  (fst a < fst p)%Q -> (fst b < fst p)%Q -> edge_wn p a b = 0%Z.
Proof.
  destruct p as [px py], a as [ax ay], b as [bx b_y]. cbn [fst snd].
  intros Ha Hb. q_edge. q_cases; try reflexivity; exfalso; nra.
Qed.

Lemma edge_wn_above (p a b : Q * Q) :
  (snd a <= snd p)%Q -> (snd b <= snd p)%Q -> edge_wn p a b = 0%Z.
Proof.
  destruct p as [px py], a as [ax ay], b as [bx b_y]. cbn [fst snd].
  intros Ha Hb. q_edge. q_cases; try reflexivity; exfalso; nra.
Qed.

Lemma edge_wn_below (p a b : Q * Q) :
  (snd p < snd a)%Q -> (snd p < snd b)%Q -> edge_wn p a b = 0%Z.
Proof.
  destruct p as [px py], a as [ax ay], b as [bx b_y]. cbn [fst snd].
  intros Ha Hb. q_edge. q_cases; try reflexivity; exfalso; nra.
Qed.

Lemma wn_edges_left (p : Q * Q) (t : list (Q * Q)) :
  forall a d : Q * Q,
    Forall (fun q => fst p < fst q)%Q (a :: t) ->
    wn_edges p (a :: t)
    = ((if Qle_bool (snd a) (snd p) then 1 else 0)
       - (if Qle_bool (snd (last (a :: t) d)) (snd p) then 1 else 0))%Z.
Proof.
  induction t as [|b t' IH]; intros a d Hall.
  - cbn. lia.
  - change (wn_edges p (a :: b :: t'))
      with (edge_wn p a b + wn_edges p (b :: t'))%Z.
    change (last (a :: b :: t') d) with (last (b :: t') d).
    inversion Hall as [|? ? Ha Ht]; subst.
    inversion Ht as [|? ? Hb _]; subst.
    rewrite (IH b d Ht), edge_wn_left by assumption. lia.
Qed.

Lemma Qle_bool_eq_l (x y z : Q) :
  (x == y)%Q -> Qle_bool x z = Qle_bool y z.
Proof.
  intros E. apply eq_true_iff_eq. rewrite !Qle_bool_iff, E. reflexivity.
Qed.

Lemma edge_wn_translate (t p a b : Q * Q) :
  edge_wn (translate t p) (translate t a) (translate t b) = edge_wn p a b.
Proof.
  destruct t as [tx ty], p as [px py], a as [ax ay], b as [bx b_y].
  unfold translate. cbn [fst snd]. q_edge.
  q_cases; try reflexivity; exfalso; nra.
Qed.

Lemma wn_edges_translate (t p : Q * Q) (v : list (Q * Q)) :
  wn_edges (translate t p) (map (translate t) v) = wn_edges p v.
Proof.
  induction v as [|a v IH]; [reflexivity|].
  destruct v as [|b v']; [reflexivity|].
  change (wn_edges p (a :: b :: v'))
    with (edge_wn p a b + wn_edges p (b :: v'))%Z.
  rewrite <- IH, <- (edge_wn_translate t). reflexivity.
Qed.

(** Case analysis that drops the impossible branches as it goes. *)
Ltac q_cases_prune :=
  repeat (match goal with
          | |- context [Qle_bool ?a ?b] =>
              let E := fresh "E" in
              destruct (Qle_bool a b) eqn:E;
              [apply Qle_bool_iff in E | apply Qle_bool_false in E]
          | |- context [Qltb ?a ?b] =>
              let E := fresh "E" in
              destruct (Qltb a b) eqn:E;
              [apply Qltb_true in E | apply Qltb_false in E]
          end; cbv iota; cbn [andb]; try (exfalso; lra)).

Lemma wn_edges_rectangle (px py x0 y0 x1 y1 : Q) :
  (x0 < x1)%Q -> (y0 < y1)%Q ->
  wn_edges (px, py) (rectangle x0 y0 x1 y1)
  = if Qle_bool x0 px && Qltb px x1 && Qle_bool y0 py && Qltb py y1
    then 1%Z else 0%Z.
Proof.
  intros Hx Hy. unfold rectangle. cbn [wn_edges]. q_edge.
  q_cases_prune; try reflexivity; exfalso; nra.
Qed.

(** ** wn.py: further properties *)

(** X1. [wn_pnpoly] never indexes out of range: for every point and every
    polygon, of any length and any coordinate type, it returns an integer
    whose absolute value is at most the number of edges [len(v) - 1] (0 for
    an empty or one-vertex polygon). *)
Theorem X1_wn_pnpoly_bounded :
  forall (T : Type) (S : Scalar T) (p : T * T) (v : list (T * T)),
    exists w, Wn.wn_pnpoly p v = Ok w
              /\ (Z.abs w <= Z.of_nat (length v - 1))%Z.
Proof. intros T S p v. apply wn_pnpoly_bound. Qed.

(** X2. [wn_multipnpoly] returns one cell per point, in the order of the
    points; for a polygon of at most 2^31 vertices the cell of point [i]
    holds exactly the winding number that [wn_pnpoly] returns for it. *)
Theorem X2_wn_multipnpoly_cells :
  forall (T : Type) (S : Scalar T) (ps v : list (T * T)),
    (Z.of_nat (length v) <= 2 ^ 31)%Z ->
    exists out,
      Wn.wn_multipnpoly ps v = Ok out
      /\ length out = length ps
      /\ forall i p, nth_error ps i = Some p ->
           exists w, Wn.wn_pnpoly p v = Ok w /\ nth_error out i = Some w.
Proof.
  intros T S ps v Hv. eexists. split; [apply wn_multipnpoly_map|]. split.
  - apply length_map.
  - intros i p Hp. exists (Wn.wn_value p v). split.
    + apply wn_pnpoly_value.
    + rewrite nth_error_map, Hp. cbn [option_map]. f_equal.
      pose proof (wn_value_bound p v) as B.
      apply int32_small. lia.
Qed.

Lemma X2_witness :
  exists out,
    Wn.wn_multipnpoly [(0, 0)%Q; (1, 1)%Q] tests_vQ = Ok out
    /\ length out = 2%nat
    /\ forall i p, nth_error [(0, 0)%Q; (1, 1)%Q] i = Some p ->
         exists w, Wn.wn_pnpoly p tests_vQ = Ok w /\ nth_error out i = Some w.
Proof.
  apply (X2_wn_multipnpoly_cells Q Scalar_Q [(0, 0)%Q; (1, 1)%Q] tests_vQ).
  vm_compute. discriminate.
Defined.

(** X3. Walking a polygon backwards negates the winding number of every
    point, so the coverage of a polygon does not depend on its orientation
    (exact coordinates). *)
Theorem X3_orientation :
  forall (p : Q * Q) (pixels v : list (Q * Q)),
    (exists w, Wn.wn_pnpoly p v = Ok w /\ Wn.wn_pnpoly p (rev v) = Ok (- w)%Z)
    /\ Sky.coverage pixels (rev v) = Sky.coverage pixels v.
Proof.
  intros p pixels v. split.
  - exists (wn_edges p v). rewrite !wn_pnpoly_edges, wn_edges_rev. auto.
  - rewrite !coverage_map. f_equal. apply map_ext. intros q.
    rewrite !wn_value_edges, wn_edges_rev, ne0_int32_opp. reflexivity.
Qed.

(** X4. A point that lies at or above every vertex, strictly below every
    vertex, or strictly to the right of every vertex of a polygon has the
    winding number 0, whether the polygon is closed or not (exact
    coordinates). *)
Theorem X4_outside_is_zero :
  forall (p : Q * Q) (v : list (Q * Q)),
    Forall (fun q => snd q <= snd p)%Q v
    \/ Forall (fun q => snd p < snd q)%Q v
    \/ Forall (fun q => fst q < fst p)%Q v ->
    Wn.wn_pnpoly p v = Ok 0%Z.
Proof.
  intros p v Hout. rewrite wn_pnpoly_edges. f_equal.
  apply wn_edges_all_zero. intros a b Ha Hb.
  destruct Hout as [Hall | [Hall | Hall]];
    rewrite Forall_forall in Hall.
  - apply edge_wn_above; apply Hall; assumption.
  - apply edge_wn_below; apply Hall; assumption.
  - apply edge_wn_right; apply Hall; assumption.
Qed.

Lemma X4_witness : Wn.wn_pnpoly (2, 0)%Q tests_vQ = Ok 0%Z.
Proof.
  apply (X4_outside_is_zero (2, 0)%Q tests_vQ).
  right. right. unfold tests_vQ.
  repeat constructor; cbn [fst snd]; lra.
Defined.

(** X5. A point strictly to the left of every vertex of a closed polygon has
    the winding number 0: the upward and the downward crossings of its
    height cancel. Closure is needed: for the open line from (1, 0) to
    (1, 2) the point (0, 1) gets the winding number 1. *)
Theorem X5_left_of_closed_is_zero :
  (forall (p : Q * Q) (v : list (Q * Q)),
      closed v ->
      Forall (fun q => fst p < fst q)%Q v ->
      Wn.wn_pnpoly p v = Ok 0%Z)
  /\ Wn.wn_pnpoly (0, 1)%Q [(1, 0)%Q; (1, 2)%Q] = Ok 1%Z.
Proof.
  split; [|reflexivity].
  intros p v Hclosed Hleft. rewrite wn_pnpoly_edges. f_equal.
  destruct v as [|a t]; [reflexivity|].
  rewrite (wn_edges_left p t a a Hleft).
  destruct Hclosed as [_ Hy].
  rewrite (Qle_bool_eq_l _ _ (snd p) Hy). lia.
Qed.

Lemma X5_witness : Wn.wn_pnpoly (-2, 0)%Q tests_vQ = Ok 0%Z.
Proof.
  apply (proj1 X5_left_of_closed_is_zero (-2, 0)%Q tests_vQ).
  - cbn. split; reflexivity.
  - unfold tests_vQ. repeat constructor; cbn [fst snd]; lra.
Defined.

(** X6. For the closed rectangle with corners (x0, y0) and (x1, y1),
    [x0 < x1] and [y0 < y1], the winding number of (px, py) is 1 when
    [x0 <= px < x1] and [y0 <= py < y1], and 0 otherwise: the left and the
    bottom side belong to the rectangle, the right and the top side do
    not. *)
Theorem X6_rectangle_half_open :
  forall px py x0 y0 x1 y1 : Q,
    (x0 < x1)%Q -> (y0 < y1)%Q ->
    Wn.wn_pnpoly (px, py) (rectangle x0 y0 x1 y1)
    = Ok (if Qle_bool x0 px && Qltb px x1 && Qle_bool y0 py && Qltb py y1
          then 1%Z else 0%Z).
Proof.
  intros px py x0 y0 x1 y1 Hx Hy.
  rewrite wn_pnpoly_edges, wn_edges_rectangle by assumption. reflexivity.
Qed.

Lemma X6_witness :
  Wn.wn_pnpoly (-1, -1)%Q (rectangle (-1) (-1) 1 1) = Ok 1%Z
  /\ Wn.wn_pnpoly (1, 1)%Q (rectangle (-1) (-1) 1 1) = Ok 0%Z.
Proof.
  split.
  - apply (X6_rectangle_half_open (-1) (-1) (-1) (-1) 1 1); reflexivity.
  - apply (X6_rectangle_half_open 1 1 (-1) (-1) 1 1); reflexivity.
Defined.

(** X7. Shifting the point and every vertex of the polygon by the same
    vector leaves the winding number unchanged (exact coordinates). *)
Theorem X7_translation_invariant :
  forall (t p : Q * Q) (v : list (Q * Q)),
    Wn.wn_pnpoly (translate t p) (map (translate t) v) = Wn.wn_pnpoly p v.
Proof.
  intros t p v. rewrite !wn_pnpoly_edges, wn_edges_translate. reflexivity.
Qed.

(** ** skycoverage.py: what [coverage_all] counts *)

Lemma int32_add_l (a b : Z) : int32 (int32 a + b) = int32 (a + b).
Proof.
  unfold int32.
  replace ((a + 2 ^ 31) mod 2 ^ 32 - 2 ^ 31 + b + 2 ^ 31)%Z
    with ((a + 2 ^ 31) mod 2 ^ 32 + b)%Z by ring.
  rewrite Zplus_mod_idemp_l. do 2 f_equal. ring.
Qed.

Lemma int32_add_r (a b : Z) : int32 (a + int32 b) = int32 (a + b).
Proof. rewrite Z.add_comm, int32_add_l, Z.add_comm. reflexivity. Qed.

Lemma combine_map_same {A B C : Type} (f : A -> B) (g : A -> C) (l : list A) :
  combine (map f l) (map g l) = map (fun a => (f a, g a)) l.
Proof.
  induction l as [|a l IH]; [reflexivity|].
  cbn [map combine]. rewrite IH. reflexivity.
Qed.

Lemma iadd_maps {A : Type} (f g : A -> Z) (l : list A) :
  iadd (map f l) (map g l) = Ok (map (fun a => int32 (f a + g a)) l).
Proof.
  rewrite iadd_same_length by (rewrite !length_map; reflexivity).
  rewrite combine_map_same, map_map. reflexivity.
Qed.

Lemma Forall2_map_same {A B : Type} (P : B -> B -> Prop) (f g : A -> B)
      (l : list A) :
  (forall a, P (f a) (g a)) -> Forall2 P (map f l) (map g l).
Proof.
  intros Hfg. induction l as [|a l IH]; cbn [map]; constructor; auto.
Qed.

Section CountFacts.
Context {T : Type} `{Scalar T}.

Lemma inside_01 (p : T * T) (v : list (T * T)) :
  inside p v = 0%Z \/ inside p v = 1%Z.
Proof. apply int32_of_bool_01. Qed.

Lemma count_inside_range (p : T * T) (polygons : list (list (T * T))) :
  (0 <= count_inside p polygons <= Z.of_nat (length polygons))%Z.
Proof.
  induction polygons as [|v l IH]; cbn [count_inside fold_right length].
  - lia.
  - fold (count_inside p l). destruct (inside_01 p v) as [E | E]; lia.
Qed.

Lemma count_inside_app (p : T * T) (l1 l2 : list (list (T * T))) :
  count_inside p (l1 ++ l2)
  = (count_inside p l1 + count_inside p l2)%Z.
Proof.
  induction l1 as [|v l IH]; [reflexivity|].
  cbn [app count_inside fold_right].
  fold (count_inside p (l ++ l2)). fold (count_inside p l). lia.
Qed.

Lemma count_inside_perm (p : T * T) (l1 l2 : list (list (T * T))) :
  Permutation l1 l2 -> count_inside p l1 = count_inside p l2.
Proof.
  induction 1 as [| v l l' _ IH | u v l | l l' l'' _ IH1 _ IH2].
  - reflexivity.
  - cbn [count_inside fold_right].
    fold (count_inside p l). fold (count_inside p l'). lia.
  - cbn [count_inside fold_right]. lia.
  - congruence.
Qed.

Lemma accumulate_count (pixels : list (T * T)) (rest : list (list (T * T))) :
  forall f : T * T -> Z,
    fold_left
      (fun acc polygon =>
         image <- acc ;; c <- Sky.coverage pixels polygon ;; iadd image c)
      rest (Ok (map (fun p => int32 (f p)) pixels))
    = Ok (map (fun p => int32 (f p + count_inside p rest)) pixels).
Proof.
  induction rest as [|v rest IH]; intros f.
  - cbn [fold_left]. f_equal. apply map_ext. intros p.
    cbn. f_equal. lia.
  - cbn [fold_left bind]. rewrite coverage_map. cbn [bind].
    rewrite iadd_maps.
    rewrite (map_ext _ (fun p => int32 (f p + inside p v)))
      by (intros p; apply int32_add_l).
    rewrite (IH (fun p => f p + inside p v)%Z). f_equal.
    apply map_ext. intros p. cbn [count_inside fold_right].
    fold (count_inside p rest). f_equal. lia.
Qed.

Lemma coverage_all_count (pixels : list (T * T))
      (polygons : list (list (T * T))) :
  polygons <> [] ->
  Sky.coverage_all pixels polygons
  = Ok (map (fun p => int32 (count_inside p polygons)) pixels).
Proof.
  destruct polygons as [|p0 rest]; [congruence|]. intros _.
  unfold Sky.coverage_all. cbn [getitem nth_error bind skipn].
  rewrite coverage_map. cbn [bind].
  rewrite (map_ext _ (fun p => int32 (inside p p0))).
  - rewrite accumulate_count. reflexivity.
  - intros p. fold (inside p p0). symmetry. apply int32_small.
    destruct (inside_01 p p0) as [-> | ->]; lia.
Qed.

End CountFacts.

(** X8. Over a non-empty polygon list, the cell of [coverage_all] for a
    pixel is the number of polygons whose winding number at that pixel is
    nonzero, stored in a 32-bit cell (the count modulo 2^32); the count lies
    between 0 and the number of polygons, so for fewer than 2^31 polygons
    the cell is the count itself. *)
Theorem X8_coverage_all_counts :
  forall (T : Type) (S : Scalar T) (pixels : list (T * T))
         (polygons : list (list (T * T))),
    polygons <> [] ->
    Sky.coverage_all pixels polygons
    = Ok (map (fun p => int32 (count_inside p polygons)) pixels)
    /\ (forall p, 0 <= count_inside p polygons <= Z.of_nat (length polygons))%Z
    /\ ((Z.of_nat (length polygons) < 2 ^ 31)%Z ->
        Sky.coverage_all pixels polygons
        = Ok (map (fun p => count_inside p polygons) pixels)).
Proof.
  intros T S pixels polygons Hne. split; [|split].
  - apply coverage_all_count, Hne.
  - intros p. apply count_inside_range.
  - intros Hn. rewrite coverage_all_count by exact Hne. f_equal.
    apply map_ext. intros p. apply int32_small.
    pose proof (count_inside_range p polygons). lia.
Qed.

Lemma X8_witness :
  Sky.coverage_all [(0, 0)%Q; (1, 1)%Q] [tests_vQ; tests_vQ]
  = Ok (map (fun p => int32 (count_inside p [tests_vQ; tests_vQ]))
            [(0, 0)%Q; (1, 1)%Q]).
Proof.
  assert (Hne : [tests_vQ; tests_vQ] <> []) by discriminate.
  exact (proj1 (X8_coverage_all_counts Q Scalar_Q [(0, 0)%Q; (1, 1)%Q]
                  [tests_vQ; tests_vQ] Hne)).
Defined.

(** X9. The result of [coverage_all] does not depend on the order of the
    polygons: two lists that are permutations of each other give the same
    result (the same array, or [IndexError] for both when they are
    empty). *)
Theorem X9_coverage_all_order :
  forall (T : Type) (S : Scalar T) (pixels : list (T * T))
         (l1 l2 : list (list (T * T))),
    Permutation l1 l2 ->
    Sky.coverage_all pixels l1 = Sky.coverage_all pixels l2.
Proof.
  intros T S pixels l1 l2 Hperm.
  destruct l1 as [|v l].
  - apply Permutation_nil in Hperm. subst. reflexivity.
  - assert (Hne : l2 <> []).
    { intros ->. apply Permutation_sym, Permutation_nil in Hperm.
      discriminate. }
    rewrite !coverage_all_count by (exact Hne || discriminate).
    f_equal. apply map_ext. intros p. f_equal.
    apply count_inside_perm, Hperm.
Qed.

Lemma X9_witness :
  Sky.coverage_all [(0, 0)%Q] [tests_vQ; degenerate_polygon]
  = Sky.coverage_all [(0, 0)%Q] [degenerate_polygon; tests_vQ].
Proof.
  apply (X9_coverage_all_order Q Scalar_Q [(0, 0)%Q]
           [tests_vQ; degenerate_polygon] [degenerate_polygon; tests_vQ]).
  apply perm_swap.
Defined.

(** X10. The polygon list can be split: for two non-empty lists,
    [coverage_all] of their concatenation is the cell-wise sum (as
    [image += other] computes it) of the results for the two parts. *)
Theorem X10_coverage_all_split :
  forall (T : Type) (S : Scalar T) (pixels : list (T * T))
         (l1 l2 : list (list (T * T))),
    l1 <> [] -> l2 <> [] ->
    exists i1 i2,
      Sky.coverage_all pixels l1 = Ok i1
      /\ Sky.coverage_all pixels l2 = Ok i2
      /\ Sky.coverage_all pixels (l1 ++ l2) = iadd i1 i2.
Proof.
  intros T S pixels l1 l2 H1 H2.
  do 2 eexists. split; [apply coverage_all_count, H1|].
  split; [apply coverage_all_count, H2|].
  rewrite coverage_all_count by (destruct l1; [congruence | discriminate]).
  rewrite iadd_maps. f_equal. apply map_ext. intros p.
  rewrite int32_add_l, int32_add_r, count_inside_app. reflexivity.
Qed.

Lemma X10_witness :
  exists i1 i2,
    Sky.coverage_all [(0, 0)%Q] [tests_vQ] = Ok i1
    /\ Sky.coverage_all [(0, 0)%Q] [degenerate_polygon] = Ok i2
    /\ Sky.coverage_all [(0, 0)%Q] ([tests_vQ] ++ [degenerate_polygon])
       = iadd i1 i2.
Proof.
  apply (X10_coverage_all_split Q Scalar_Q [(0, 0)%Q]
           [tests_vQ] [degenerate_polygon]); discriminate.
Defined.

(** X11. Adding a polygon to a non-empty list never lowers a cell and
    raises it by at most one, as long as the number of polygons stays below
    2^31. *)
Theorem X11_coverage_all_monotone :
  forall (T : Type) (S : Scalar T) (pixels : list (T * T))
         (polygons : list (list (T * T))) (extra : list (T * T)),
    polygons <> [] ->
    (Z.of_nat (length polygons) + 1 < 2 ^ 31)%Z ->
    exists before after,
      Sky.coverage_all pixels polygons = Ok before
      /\ Sky.coverage_all pixels (polygons ++ [extra]) = Ok after
      /\ Forall2 (fun b a => b <= a <= b + 1)%Z before after.
Proof.
  intros T S pixels polygons extra Hne Hn.
  do 2 eexists. split; [apply coverage_all_count, Hne|].
  split.
  - apply coverage_all_count. destruct polygons; [congruence | discriminate].
  - apply Forall2_map_same. intros p.
    rewrite count_inside_app. cbn [count_inside fold_right].
    fold (inside p extra).
    pose proof (count_inside_range p polygons) as B.
    destruct (inside_01 p extra) as [E | E]; rewrite E;
      rewrite !int32_small by lia; lia.
Qed.

Lemma X11_witness :
  exists before after,
    Sky.coverage_all [(0, 0)%Q; (1, 1)%Q] [tests_vQ] = Ok before
    /\ Sky.coverage_all [(0, 0)%Q; (1, 1)%Q] ([tests_vQ] ++ [tests_vQ])
       = Ok after
    /\ Forall2 (fun b a => b <= a <= b + 1)%Z before after.
Proof.
  apply (X11_coverage_all_monotone Q Scalar_Q [(0, 0)%Q; (1, 1)%Q]
           [tests_vQ] tests_vQ).
  - discriminate.
  - vm_compute. reflexivity.
Defined.

(** ** skycoverage.py: closing a polygon *)

Lemma getitem_last {A : Type} (l : list A) (d : A) :
  l <> [] -> getitem l (length l - 1) = Ok (last l d).
Proof.
  intros Hl. unfold getitem.
  destruct (exists_last Hl) as (l' & a & ->).
  rewrite length_app, last_last. cbn [length].
  replace (length l' + 1 - 1)%nat with (length l') by lia.
  rewrite nth_error_app2, Nat.sub_diag by lia. reflexivity.
Qed.

Lemma row_ne_false (a b : Q * Q) :
  row_ne a b = false <-> (fst a == fst b /\ snd a == snd b)%Q.
Proof.
  unfold row_ne. rewrite negb_false_iff, andb_true_iff, !Qeq_bool_iff.
  reflexivity.
Qed.

Lemma close_polygon_closed (v : list (Q * Q)) :
  v <> [] -> closed v -> close_polygon v = Ok v.
Proof.
  intros Hne Hc. unfold close_polygon.
  destruct v as [|a t]; [congruence|].
  cbn [getitem nth_error bind].
  change (match nth_error (a :: t) (length (a :: t) - 1) with
          | Some a0 => Ok a0
          | None => Raise IndexError
          end) with (getitem (a :: t) (length (a :: t) - 1)).
  rewrite (getitem_last (a :: t) a) by discriminate. cbn [bind].
  apply row_ne_false in Hc. rewrite Hc. reflexivity.
Qed.

(** X12. [close_polygon] raises [IndexError] on an empty polygon. On a
    non-empty polygon it returns the polygon itself when its last vertex
    equals its first, and the polygon with its first vertex appended
    otherwise; the result is closed, and closing it again changes
    nothing. *)
Theorem X12_close_polygon :
  close_polygon [] = Raise IndexError
  /\ forall (a : Q * Q) (t : list (Q * Q)),
       exists q,
         close_polygon (a :: t) = Ok q
         /\ (q = a :: t \/ q = (a :: t) ++ [a])
         /\ (closed (a :: t) -> q = a :: t)
         /\ closed q
         /\ close_polygon q = Ok q.
Proof.
  split; [reflexivity|]. intros a t.
  unfold close_polygon at 1. cbn [getitem nth_error bind].
  change (match nth_error (a :: t) (length (a :: t) - 1) with
          | Some a0 => Ok a0
          | None => Raise IndexError
          end) with (getitem (a :: t) (length (a :: t) - 1)).
  rewrite (getitem_last (a :: t) a) by discriminate. cbn [bind].
  destruct (row_ne a (last (a :: t) a)) eqn:E.
  - assert (Hc : closed ((a :: t) ++ [a])).
    { change ((a :: t) ++ [a]) with (a :: (t ++ [a])).
      unfold closed. change (a :: t ++ [a]) with ((a :: t) ++ [a]).
      rewrite last_last. split; reflexivity. }
    eexists. split; [reflexivity|]. repeat split.
    + right. reflexivity.
    + intros Hclosed. apply row_ne_false in Hclosed. congruence.
    + apply Hc.
    + apply Hc.
    + apply close_polygon_closed; [discriminate | exact Hc].
  - assert (Hc : closed (a :: t)) by (apply row_ne_false, E).
    eexists. split; [reflexivity|]. repeat split.
    + left. reflexivity.
    + apply Hc.
    + apply Hc.
    + apply close_polygon_closed; [discriminate | exact Hc].
Qed.

Lemma X12_witness : close_polygon tests_vQ = Ok tests_vQ.
Proof.
  destruct (proj2 X12_close_polygon (-1, -1)%Q
                  [(1, -1); (0, 1); (-1, -1)]%Q)
    as (q & E & _ & Hsame & _).
  unfold tests_vQ. rewrite E. f_equal. apply Hsame.
  cbn. split; reflexivity.
Defined.

Example close_polygon_open :
  close_polygon [(0, 0); (1, 0); (0, 1)]%Q
  = Ok [(0, 0); (1, 0); (0, 1); (0, 0)]%Q.
Proof. reflexivity. Qed.

(** ** skycoverage.py: the coordinates of the grid *)

Lemma inject_Z_pred_pos (n : nat) :
  (2 <= n)%nat -> (0 < inject_Z (Z.of_nat n - 1))%Q.
Proof.
  intros Hn. change 0%Q with (inject_Z 0). rewrite <- Zlt_Qlt. lia.
Qed.

Lemma inject_Z_succ (z : Z) : (inject_Z (z + 1) == inject_Z z + 1)%Q.
Proof. rewrite inject_Z_plus. reflexivity. Qed.

Lemma linspace_samples (start stop : Q) (num : nat) :
  (2 <= num)%nat ->
  exists h : nat -> Q,
    linspace start stop num = removelast (map h (seq 0 num)) ++ [stop]
    /\ forall k,
         (h k == start + inject_Z (Z.of_nat k)
                         * ((stop - start) / inject_Z (Z.of_nat num - 1)))%Q.
Proof.
  intros Hnum. pose proof (inject_Z_pred_pos num Hnum) as Hd.
  unfold linspace, set_last.
  assert (E1 : (0 <? Z.of_nat num - 1)%Z = true) by (apply Z.ltb_lt; lia).
  assert (E2 : (1 <? num)%nat = true) by (apply Nat.ltb_lt; lia).
  rewrite E1, E2.
  destruct (Qeq_bool ((stop - start) / inject_Z (Z.of_nat num - 1)) 0);
    rewrite !map_map; eexists; (split; [reflexivity|]);
    intros k; cbv beta; field; lra.
Qed.

Lemma length_init (h : nat -> Q) (num : nat) :
  length (removelast (map h (seq 0 num))) = (num - 1)%nat.
Proof.
  rewrite removelast_firstn_len, length_firstn, length_map, length_seq. lia.
Qed.

(** The samples of [np.linspace]: evenly spaced from [start]. *)
Lemma linspace_nth (start stop : Q) (num k : nat) :
  (2 <= num)%nat -> (k < num)%nat ->
  (nth k (linspace start stop num) 0
   == start + inject_Z (Z.of_nat k)
              * ((stop - start) / inject_Z (Z.of_nat num - 1)))%Q.
Proof.
  intros Hnum Hk. pose proof (inject_Z_pred_pos num Hnum) as Hd.
  destruct (linspace_samples start stop num Hnum) as (h & -> & Hh).
  destruct (Nat.eq_dec k (num - 1)) as [-> | Hlast].
  - rewrite app_nth2 by (rewrite length_init; lia).
    rewrite length_init, Nat.sub_diag. cbn [nth].
    replace (Z.of_nat (num - 1)) with (Z.of_nat num - 1)%Z by lia.
    field. lra.
  - rewrite app_nth1 by (rewrite length_init; lia).
    rewrite removelast_firstn_len, nth_firstn, length_map, length_seq.
    assert (E3 : (k <? Nat.pred num)%nat = true) by (apply Nat.ltb_lt; lia).
    rewrite E3, nth_tabulate by exact Hk. apply Hh.
Qed.

Lemma linspace_last (start stop : Q) (num : nat) :
  (2 <= num)%nat -> nth (num - 1) (linspace start stop num) 0%Q = stop.
Proof.
  intros Hnum.
  destruct (linspace_samples start stop num Hnum) as (h & -> & _).
  rewrite app_nth2 by (rewrite length_init; lia).
  rewrite length_init, Nat.sub_diag. reflexivity.
Qed.

(** X13. For a grid of at least 2 by 2 samples, [make_pixels] returns
    [nx * ny] points; the point at position [i * ny + j] has the coordinates
    [xmin + i * dx] and [ymin + j * dy] with [dx = (xmax - xmin) / (nx - 1)]
    and [dy = (ymax - ymin) / (ny - 1)]; the last point is exactly
    [(xmax, ymax)]. *)
Theorem X13_make_pixels_coordinates :
  forall (xmin ymin xmax ymax : Q) (nx ny : nat),
    (2 <= nx)%nat -> (2 <= ny)%nat ->
    let pixels := make_pixels (xmin, ymin, xmax, ymax) (nx, ny) in
    length pixels = (nx * ny)%nat
    /\ (forall i j, (i < nx)%nat -> (j < ny)%nat ->
          exists x y,
            nth_error pixels (i * ny + j) = Some (x, y)
            /\ (x == xmin + inject_Z (Z.of_nat i)
                            * ((xmax - xmin) / inject_Z (Z.of_nat nx - 1)))%Q
            /\ (y == ymin + inject_Z (Z.of_nat j)
                            * ((ymax - ymin) / inject_Z (Z.of_nat ny - 1)))%Q)
    /\ nth_error pixels (nx * ny - 1) = Some (xmax, ymax).
Proof.
  intros xmin ymin xmax ymax nx ny Hnx Hny pixels. split; [|split].
  - apply length_make_pixels.
  - intros i j Hi Hj. do 2 eexists.
    split; [apply make_pixels_nth; assumption|].
    split; apply linspace_nth; assumption.
  - replace (nx * ny - 1)%nat with ((nx - 1) * ny + (ny - 1))%nat by nia.
    unfold pixels. rewrite make_pixels_nth by lia.
    rewrite !linspace_last by assumption. reflexivity.
Qed.

Lemma X13_witness :
  length (make_pixels (0, 0, 1, 2)%Q (2, 3)%nat) = 6%nat
  /\ nth_error (make_pixels (0, 0, 1, 2)%Q (2, 3)%nat) 5 = Some (1, 2)%Q.
Proof.
  assert (H2 : (2 <= 2)%nat) by lia. assert (H3 : (2 <= 3)%nat) by lia.
  pose proof (X13_make_pixels_coordinates 0 0 1 2 2 3 H2 H3) as [Hl [_ Hc]].
  split; [exact Hl | exact Hc].
Defined.

Lemma edges_around (a b : Q) (n i : nat) :
  (2 <= n)%nat -> (i < n)%nat ->
  let d := ((b - a) / inject_Z (Z.of_nat n - 1))%Q in
  (nth i (linspace (a - d / 2) (b + d / 2) (n + 1)) 0
   == nth i (linspace a b n) 0 - d / 2)%Q
  /\ (nth (S i) (linspace (a - d / 2) (b + d / 2) (n + 1)) 0
      == nth i (linspace a b n) 0 + d / 2)%Q.
Proof.
  intros Hn Hi d. pose proof (inject_Z_pred_pos n Hn) as Hd.
  rewrite !linspace_nth by lia.
  replace (Z.of_nat (n + 1) - 1)%Z with (Z.of_nat n - 1 + 1)%Z by lia.
  rewrite Nat2Z.inj_succ. unfold Z.succ. rewrite !inject_Z_succ.
  unfold d. split; field; lra.
Qed.

(** X14. For a grid of at least 2 by 2 samples, the edge arrays that
    [make_image] returns bracket the pixel centres of [make_pixels]: edge
    [i] lies half a cell before centre [i] and edge [i + 1] half a cell
    after it, on both axes. *)
Theorem X14_make_image_edges :
  forall (pixels : list (Q * Q)) (coverage : list Z)
         (xmin ymin xmax ymax : Q) (nx ny : nat),
    (2 <= nx)%nat -> (2 <= ny)%nat ->
    length coverage = (nx * ny)%nat ->
    let dx := ((xmax - xmin) / inject_Z (Z.of_nat nx - 1))%Q in
    let dy := ((ymax - ymin) / inject_Z (Z.of_nat ny - 1))%Q in
    exists x y image,
      make_image pixels coverage (xmin, ymin, xmax, ymax) (nx, ny)
      = Ok (x, y, image)
      /\ (forall i, (i < nx)%nat ->
            (nth i x 0 == nth i (linspace xmin xmax nx) 0 - dx / 2)%Q
            /\ (nth (S i) x 0 == nth i (linspace xmin xmax nx) 0 + dx / 2)%Q)
      /\ (forall j, (j < ny)%nat ->
            (nth j y 0 == nth j (linspace ymin ymax ny) 0 - dy / 2)%Q
            /\ (nth (S j) y 0 == nth j (linspace ymin ymax ny) 0 + dy / 2)%Q).
Proof.
  intros pixels coverage xmin ymin xmax ymax nx ny Hnx Hny Hlen dx dy.
  unfold make_image. rewrite !div_int_nonzero by lia. cbn [bind].
  unfold reshape. apply Nat.eqb_eq in Hlen. rewrite Hlen. cbn [bind].
  do 3 eexists. split; [reflexivity|]. split.
  - intros i Hi. apply edges_around; assumption.
  - intros j Hj. apply edges_around; assumption.
Qed.

Lemma X14_witness :
  exists x y image,
    make_image [] [1; 2; 3; 4]%Z (0, 0, 1, 1)%Q (2, 2)%nat = Ok (x, y, image)
    /\ (forall i, (i < 2)%nat ->
          (nth i x 0 == nth i (linspace 0 1 2) 0 - (1 - 0) / inject_Z 1 / 2)%Q
          /\ (nth (S i) x 0
              == nth i (linspace 0 1 2) 0 + (1 - 0) / inject_Z 1 / 2)%Q)
    /\ (forall j, (j < 2)%nat ->
          (nth j y 0 == nth j (linspace 0 1 2) 0 - (1 - 0) / inject_Z 1 / 2)%Q
          /\ (nth (S j) y 0
              == nth j (linspace 0 1 2) 0 + (1 - 0) / inject_Z 1 / 2)%Q).
Proof.
  apply (X14_make_image_edges [] [1; 2; 3; 4]%Z 0 0 1 1 2 2); try lia.
  reflexivity.
Defined.

Lemma length_transpose_rows (r c : nat) (m : list (list Z)) :
  length (transpose r c m) = c
  /\ Forall (fun row => length row = r) (transpose r c m).
Proof.
  unfold transpose. split.
  - rewrite length_map, length_seq. reflexivity.
  - apply Forall_map, Forall_forall. intros j _.
    rewrite length_map, length_seq. reflexivity.
Qed.

(** X15. [make_image] neither truncates nor pads: when [nx] and [ny] differ
    from 1 and [len(coverage)] is not [nx * ny] it raises [ValueError];
    whenever it returns, [len(coverage) = nx * ny] and the image has [ny]
    rows of [nx] cells. *)
Theorem X15_make_image_shape :
  forall (pixels : list (Q * Q)) (coverage : list Z)
         (extent : Q * Q * Q * Q) (nx ny : nat),
    (nx <> 1%nat -> ny <> 1%nat -> length coverage <> (nx * ny)%nat ->
     make_image pixels coverage extent (nx, ny) = Raise ValueError)
    /\ (forall x y image,
          make_image pixels coverage extent (nx, ny) = Ok (x, y, image) ->
          length coverage = (nx * ny)%nat
          /\ length image = ny
          /\ Forall (fun row => length row = nx) image).
Proof.
  intros pixels coverage [[[xmin ymin] xmax] ymax] nx ny.
  unfold make_image, reshape. split.
  - intros Hnx Hny Hlen. rewrite !div_int_nonzero by lia. cbn [bind].
    apply Nat.eqb_neq in Hlen. rewrite Hlen. reflexivity.
  - intros x y image.
    destruct (div_int (xmax - xmin) (Z.of_nat nx - 1)); [|discriminate].
    destruct (div_int (ymax - ymin) (Z.of_nat ny - 1)); [|discriminate].
    cbn [bind].
    destruct (length coverage =? nx * ny)%nat eqn:E; [|discriminate].
    cbn [bind]. intros [= _ _ <-]. apply Nat.eqb_eq in E.
    split; [exact E|]. apply length_transpose_rows.
Qed.

Lemma X15_witness :
  make_image [] [1; 2; 3]%Z (0, 0, 1, 1)%Q (2, 2)%nat = Raise ValueError.
Proof.
  apply (proj1 (X15_make_image_shape [] [1; 2; 3]%Z (0, 0, 1, 1)%Q 2 2));
    cbn; lia.
Defined.

(** ** layers.py *)

Lemma transpose_cells_in (cover : list Z) (nx ny : nat) (P : Z -> Prop) :
  length cover = (nx * ny)%nat ->
  Forall P cover ->
  Forall (Forall P)
         (transpose nx ny
            (map (fun i => firstn ny (skipn (i * ny) cover)) (seq 0 nx))).
Proof.
  intros Hlen HP. unfold transpose.
  apply Forall_map, Forall_forall. intros j Hj. apply in_seq in Hj.
  apply Forall_map, Forall_forall. intros i Hi. apply in_seq in Hi.
  rewrite reshape_cell by lia.
  rewrite Forall_forall in HP. apply HP, nth_In. nia.
Qed.

(** X16. [get_layers] fails with [IndexError] when there is no target,
    whatever the grid, and with [ZeroDivisionError] when there is a target
    and the grid has a single sample on an axis. With at least one target
    (fewer than 2^31) and at least 2 by 2 samples it returns edge arrays of
    [nx + 1] and [ny + 1] values and an image of [ny] rows of [nx] cells,
    each cell between 0 and the number of targets. *)
Theorem X16_get_layers :
  forall (extent : Q * Q * Q * Q) (nx ny : nat)
         (targets focalplane : list (R * R)),
    (targets = [] ->
     get_layers extent (nx, ny) targets focalplane = Raise IndexError)
    /\ (targets <> [] -> nx = 1%nat \/ ny = 1%nat ->
        get_layers extent (nx, ny) targets focalplane
        = Raise ZeroDivisionError)
    /\ (targets <> [] -> (Z.of_nat (length targets) < 2 ^ 31)%Z ->
        (2 <= nx)%nat -> (2 <= ny)%nat ->
        exists x y image,
          get_layers extent (nx, ny) targets focalplane = Ok (x, y, image)
          /\ length x = (nx + 1)%nat
          /\ length y = (ny + 1)%nat
          /\ length image = ny
          /\ Forall (fun row => length row = nx) image
          /\ Forall (Forall (fun c => 0 <= c <= Z.of_nat (length targets))%Z)
                    image).
Proof.
  intros extent nx ny targets focalplane. unfold get_layers.
  set (pixels := map (fun p => (Q2R (fst p), Q2R (snd p)))
                     (make_pixels extent (nx, ny))).
  split; [|split].
  - intros ->. reflexivity.
  - intros Hne Hone. destruct targets as [|t ts]; [congruence|].
    cbn [Geom.make_polygons map].
    destruct (coverage_all_cons pixels
                (Geom.rotate_to (fst t) (snd t) focalplane)
                (map (fun t0 => Geom.rotate_to (fst t0) (snd t0) focalplane)
                     ts))
      as (cover & E & _).
    rewrite E. cbn [bind].
    destruct extent as [[[xmin ymin] xmax] ymax].
    unfold make_image, div_int.
    destruct (Z.of_nat nx - 1 =? 0)%Z eqn:Ex; [reflexivity|].
    destruct (Z.of_nat ny - 1 =? 0)%Z eqn:Ey; [reflexivity|].
    apply Z.eqb_neq in Ex, Ey. lia.
  - intros Hne Hn Hnx Hny.
    destruct (placed_coverage_range pixels targets focalplane Hne Hn)
      as (cover & E & Hlen & Hrange).
    rewrite E. cbn [bind].
    assert (Hcov : length cover = (nx * ny)%nat).
    { rewrite Hlen. unfold pixels. rewrite length_map.
      apply length_make_pixels. }
    destruct extent as [[[xmin ymin] xmax] ymax].
    unfold make_image. rewrite !div_int_nonzero by lia. cbn [bind].
    unfold reshape. apply Nat.eqb_eq in Hcov as Hcov'. rewrite Hcov'.
    cbn [bind]. do 3 eexists. split; [reflexivity|].
    rewrite !length_linspace.
    repeat split; try apply length_transpose_rows.
    apply transpose_cells_in; assumption.
Qed.

Lemma X16_witness :
  get_layers (0, 0, 1, 1)%Q (1, 1)%nat [(0, 0)%R] [] = Raise ZeroDivisionError
  /\ exists x y image,
       get_layers (0, 0, 1, 1)%Q (2, 2)%nat [(0, 0)%R] [] = Ok (x, y, image)
       /\ length x = 3%nat
       /\ length y = 3%nat
       /\ length image = 2%nat
       /\ Forall (fun row => length row = 2%nat) image
       /\ Forall (Forall (fun c => 0 <= c <= 1)%Z) image.
Proof.
  split.
  - apply (proj1 (proj2 (X16_get_layers (0, 0, 1, 1)%Q 1 1 [(0, 0)%R] []))).
    + discriminate.
    + left. reflexivity.
  - apply (proj2 (proj2 (X16_get_layers (0, 0, 1, 1)%Q 2 2 [(0, 0)%R] []))).
    + discriminate.
    + cbn. reflexivity.
    + lia.
    + lia.
Defined.

(** ** geom.py: further properties *)

Section GeomMore.
Local Open Scope R_scope.
Import Geom.

Lemma to_vec_origin : to_vec_row (0, 0) = (1, 0, 0).
Proof.
  unfold to_vec_row. cbn [fst snd].
  rewrite radians_0, Rminus_0_r, sin_PI2, cos_PI2, sin_0, cos_0.
  tuple_eq; ring.
Qed.

Lemma rot_mat_first_column (lon lat : R) :
  matvec (rot_mat lon lat) (1, 0, 0) = to_vec_row (lon, lat).
Proof.
  rewrite rot_mat_entries. unfold matvec, dot, to_vec_row. cbn [fst snd].
  rewrite sin_shift, cos_shift. tuple_eq; ring.
Qed.

Lemma rotate_to_map (lon lat : R) (X : list (R * R)) :
  rotate_to lon lat X
  = map (fun a => to_ang_row (matvec (rot_mat lon lat) (to_vec_row a))) X.
Proof.
  unfold rotate_to, to_ang, to_vec. rewrite !map_map.
  apply map_ext. intros a. rewrite vecmat_T. reflexivity.
Qed.

Lemma degrees_bound (x : R) :
  0 <= x <= PI -> 0 <= degrees x <= 180.
Proof.
  intros [Hlo Hhi]. pose proof PI_RGT_0 as Hpi. unfold degrees.
  assert (Hk : 0 < 180 / PI) by (apply Rdiv_lt_0_compat; lra).
  assert (E : PI * (180 / PI) = 180) by (field; lra).
  set (k := 180 / PI) in *. split; nra.
Qed.

Lemma degrees_bound_open (x : R) :
  - PI < x <= PI -> -180 < degrees x <= 180.
Proof.
  intros [Hlo Hhi]. pose proof PI_RGT_0 as Hpi. unfold degrees.
  assert (Hk : 0 < 180 / PI) by (apply Rdiv_lt_0_compat; lra).
  assert (E : PI * (180 / PI) = 180) by (field; lra).
  set (k := 180 / PI) in *. split; nra.
Qed.

Lemma arctan2_range (y x : R) : - PI < arctan2 y x <= PI.
Proof.
  pose proof PI_RGT_0 as Hpi. pose proof (atan_bound (y / x)) as Hb.
  unfold arctan2.
  destruct (Rlt_dec 0 x) as [Hx|Hx]; [lra|].
  destruct (Rlt_dec x 0) as [Hx'|Hx'].
  - assert (Hinv : / x < 0) by (apply Rinv_neg, Hx').
    destruct (Rle_dec 0 y) as [Hy|Hy].
    + assert (Hq : y / x <= 0) by (unfold Rdiv; nra).
      assert (Ha : atan (y / x) <= 0).
      { destruct Hq as [Hq | Hq].
        - left. rewrite <- atan_0. apply atan_increasing, Hq.
        - rewrite Hq, atan_0. lra. }
      lra.
    + assert (Hq : 0 < y / x) by (unfold Rdiv; nra).
      assert (Ha : 0 < atan (y / x)).
      { rewrite <- atan_0. apply atan_increasing, Hq. }
      lra.
  - destruct (Rlt_dec 0 y); [lra|]. destruct (Rlt_dec y 0); lra.
Qed.

(** X17. Every row that [to_vec] returns is a unit vector, for every
    longitude and latitude. *)
Theorem X17_to_vec_unit :
  forall ang : list (R * R), Forall (fun v => dot v v = 1) (to_vec ang).
Proof.
  intros ang. unfold to_vec. apply Forall_map, Forall_forall.
  intros [lon lat] _. unfold to_vec_row, dot. cbn [fst snd].
  apply unit_norm.
Qed.

(** X18. Away from the poles and with longitudes in (-180, 180],
    converting angles to vectors and back returns the angles (exact real
    arithmetic). *)
Theorem X18_angles_round_trip :
  forall X : list (R * R),
    Forall (fun a => -180 < fst a <= 180 /\ -90 < snd a < 90) X ->
    to_ang (to_vec X) = X.
Proof.
  intros X HX. unfold to_ang, to_vec. rewrite map_map.
  induction HX as [|[lon lat] X [Hlon Hlat] _ IH]; [reflexivity|].
  cbn [map fst snd] in *. rewrite IH, round_trip_row by assumption.
  reflexivity.
Qed.

Lemma X18_witness : to_ang (to_vec [(180, 0); (-10, 45)]) = [(180, 0); (-10, 45)].
Proof.
  apply (X18_angles_round_trip [(180, 0); (-10, 45)]).
  repeat constructor; cbn [fst snd]; lra.
Defined.

(** X19. Whatever the target and the input angles, every vertex that
    [rotate_to] returns, and every row of [to_ang(to_vec(X))], has its
    longitude in [-180, 180] and its latitude in [-90, 90]. *)
Theorem X19_rotate_to_range :
  forall (lon lat : R) (X : list (R * R)),
    Forall (fun a => -180 <= fst a <= 180 /\ -90 <= snd a <= 90)
           (rotate_to lon lat X)
    /\ Forall (fun a => -180 <= fst a <= 180 /\ -90 <= snd a <= 90)
              (to_ang (to_vec X)).
Proof.
  assert (Hrow : forall v : vec3,
             -180 <= fst (to_ang_row v) <= 180
             /\ -90 <= snd (to_ang_row v) <= 90).
  { intros [[x y] z]. unfold to_ang_row. cbn [fst snd]. split.
    - pose proof (degrees_bound_open _ (arctan2_range y x)). lra.
    - pose proof (degrees_bound _
                    (acos_bound (z / sqrt (x * x + y * y + z * z)))).
      lra. }
  intros lon lat X. split.
  - rewrite rotate_to_map. apply Forall_map, Forall_forall.
    intros a _. apply Hrow.
  - unfold to_ang. apply Forall_map, Forall_forall. intros v _. apply Hrow.
Qed.

(** X20. [rotate_to(lon, lat, .)] moves the origin (0, 0), the centre of the
    footprint template, onto the target: for [lon] in (-180, 180] and [lat]
    strictly between -90 and 90 it sends the vertex (0, 0) to
    [(lon, lat)]. *)
Theorem X20_centre_lands_on_target :
  forall lon lat : R,
    -180 < lon <= 180 -> -90 < lat < 90 ->
    rotate_to lon lat [(0, 0)] = [(lon, lat)].
Proof.
  intros lon lat Hlon Hlat. rewrite rotate_to_map. cbn [map].
  rewrite to_vec_origin, rot_mat_first_column, round_trip_row by assumption.
  reflexivity.
Qed.

Lemma X20_witness : rotate_to 30 (-45) [(0, 0)] = [(30, -45)].
Proof. apply (X20_centre_lands_on_target 30 (-45)); lra. Defined.

Lemma rot_mat_orthogonal (lon lat : R) :
  matmul (rot_mat lon lat) (mat_T (rot_mat lon lat)) = identity.
Proof.
  rewrite rot_mat_entries. unfold matmul, vecmat, mat_T, dot, identity.
  pose proof (sin2_cos2 (radians lon)) as Hlon.
  pose proof (unit_scaled (radians lat)) as Hlat.
  pose proof (Hlat (cos (radians lon) * cos (radians lon))).
  pose proof (Hlat (sin (radians lon) * sin (radians lon))).
  pose proof (Hlat (cos (radians lon) * sin (radians lon))).
  pose proof (Hlat 1).
  unfold Rsqr in Hlon.
  tuple_eq; nra.
Qed.

Lemma rot_mat_orthogonal_T (lon lat : R) :
  matmul (mat_T (rot_mat lon lat)) (rot_mat lon lat) = identity.
Proof.
  rewrite rot_mat_entries. unfold matmul, vecmat, mat_T, dot, identity.
  pose proof (sin2_cos2 (radians lat)) as Hlat.
  pose proof (unit_scaled (radians lon)) as Hlon.
  pose proof (Hlon (cos (radians lat) * cos (radians lat))).
  pose proof (Hlon (sin (radians lat) * sin (radians lat))).
  pose proof (Hlon (cos (radians lat) * sin (radians lat))).
  pose proof (Hlon 1).
  unfold Rsqr in Hlat.
  tuple_eq; nra.
Qed.

Lemma matvec_matmul (a b : mat3) (v : vec3) :
  matvec (matmul a b) v = matvec a (matvec b v).
Proof.
  destruct a as [[[[a00 a01] a02] [[a10 a11] a12]] [[a20 a21] a22]].
  destruct b as [[[[b00 b01] b02] [[b10 b11] b12]] [[b20 b21] b22]].
  destruct v as [[x y] z].
  unfold matvec, matmul, vecmat, mat_T, dot. tuple_eq; ring.
Qed.

Lemma dot_adjoint (m : mat3) (u w : vec3) :
  dot (matvec m u) w = dot u (matvec (mat_T m) w).
Proof.
  destruct m as [[[[a00 a01] a02] [[a10 a11] a12]] [[a20 a21] a22]].
  destruct u as [[x y] z], w as [[x' y'] z'].
  unfold matvec, mat_T, dot. ring.
Qed.

Lemma rot_mat_undo (lon lat : R) (v : vec3) :
  matvec (mat_T (rot_mat lon lat)) (matvec (rot_mat lon lat) v) = v.
Proof.
  rewrite <- matvec_matmul, rot_mat_orthogonal_T. apply matvec_identity.
Qed.

Lemma rot_mat_dot (lon lat : R) (u v : vec3) :
  dot (matvec (rot_mat lon lat) u) (matvec (rot_mat lon lat) v) = dot u v.
Proof. rewrite dot_adjoint, rot_mat_undo. reflexivity. Qed.

(** X21. The transpose of [rot_mat(lon, lat)] is its inverse on both sides,
    and the rotation preserves the scalar product of any two vectors (hence
    lengths and angles). *)
Theorem X21_rot_mat_inverse :
  forall (lon lat : R) (u v : vec3),
    matvec (mat_T (rot_mat lon lat)) (matvec (rot_mat lon lat) v) = v
    /\ matvec (rot_mat lon lat) (matvec (mat_T (rot_mat lon lat)) v) = v
    /\ dot (matvec (rot_mat lon lat) u) (matvec (rot_mat lon lat) v) = dot u v.
Proof.
  intros lon lat u v. split; [|split].
  - apply rot_mat_undo.
  - rewrite <- matvec_matmul, rot_mat_orthogonal. apply matvec_identity.
  - apply rot_mat_dot.
Qed.

Lemma sin_turn (x : R) : sin (x + 2 * PI) = sin x.
Proof. rewrite sin_plus, sin_2PI, cos_2PI. ring. Qed.

Lemma cos_turn (x : R) : cos (x + 2 * PI) = cos x.
Proof. rewrite cos_plus, sin_2PI, cos_2PI. ring. Qed.

Lemma radians_turn (x : R) : radians (x + 360) = radians x + 2 * PI.
Proof. unfold radians. field. Qed.

Lemma to_vec_row_turn (lon lat : R) :
  to_vec_row (lon + 360, lat) = to_vec_row (lon, lat).
Proof.
  unfold to_vec_row. cbn [fst snd].
  rewrite radians_turn, sin_turn, cos_turn. reflexivity.
Qed.



(** X23. [rotate_to(0, 0, .)] brings longitudes back into (-180, 180]: a
    vertex with longitude in (180, 540] and latitude strictly between -90
    and 90 comes back with its longitude lowered by 360 and its latitude
    unchanged. *)
Theorem X23_longitude_wrap :
  forall X : list (R * R),
    Forall (fun a => 180 < fst a <= 540 /\ -90 < snd a < 90) X ->
    rotate_to 0 0 X = map (fun a => (fst a - 360, snd a)) X.
Proof.
  intros X HX. rewrite rotate_to_origin. unfold to_ang, to_vec.
  rewrite map_map. apply map_ext_in. intros [lon lat] Hin.
  rewrite Forall_forall in HX. destruct (HX _ Hin) as [Hlon Hlat].
  cbn [fst snd] in *.
  replace lon with (lon - 360 + 360) at 1 by ring.
  rewrite to_vec_row_turn. apply round_trip_row; lra.
Qed.

Lemma X23_witness : rotate_to 0 0 [(270, 10)] = [(270 - 360, 10)].
Proof.
  apply (X23_longitude_wrap [(270, 10)]).
  repeat constructor; cbn [fst snd]; lra.
Defined.

(** X24. [make_polygons] returns one placed polygon per target; every
    placed polygon has as many vertices as the template, and when the
    template's last vertex repeats its first one, so does the placed
    polygon's (a closed template stays closed). *)
Theorem X24_placed_polygons_closed :
  forall targets focalplane : list (R * R),
    length (make_polygons targets focalplane) = length targets
    /\ Forall
         (fun q =>
            length q = length focalplane
            /\ (nth_error focalplane 0
                = nth_error focalplane (length focalplane - 1) ->
                nth_error q 0 = nth_error q (length q - 1)))
         (make_polygons targets focalplane).
Proof.
  intros targets focalplane. unfold make_polygons. split.
  - apply length_map.
  - apply Forall_map, Forall_forall. intros [ra dec] _. cbn [fst snd].
    rewrite rotate_to_map, length_map. split; [reflexivity|].
    intros Hclosed. rewrite !nth_error_map, Hclosed. reflexivity.
Qed.

Lemma X24_witness :
  nth_error (rotate_to 0 0 [(1, 1); (2, 2); (1, 1)]) 0
  = nth_error (rotate_to 0 0 [(1, 1); (2, 2); (1, 1)])
              (length (rotate_to 0 0 [(1, 1); (2, 2); (1, 1)]) - 1).
Proof.
  pose proof (proj2 (X24_placed_polygons_closed
                       [(0, 0)] [(1, 1); (2, 2); (1, 1)])) as Hall.
  apply Forall_inv in Hall. cbn [fst snd] in Hall.
  destruct Hall as [_ Hclosed]. apply Hclosed. reflexivity.
Defined.

Lemma radians_degrees (x : R) : radians (degrees x) = x.
Proof. unfold degrees, radians. field. apply PI_neq0. Qed.

Lemma hypot_factor (x y : R) :
  x <> 0 ->
  sqrt (x * x + y * y) = Rabs x * sqrt (1 + (y / x)²).
Proof.
  intros Hx.
  replace (x * x + y * y) with (Rsqr x * (1 + (y / x)²))
    by (unfold Rsqr; field; exact Hx).
  rewrite sqrt_mult.
  - rewrite sqrt_Rsqr_abs. reflexivity.
  - apply Rle_0_sqr.
  - pose proof (Rle_0_sqr (y / x)). lra.
Qed.

Lemma root_pos (t : R) : 0 < sqrt (1 + t²).
Proof. apply sqrt_lt_R0. pose proof (Rle_0_sqr t). lra. Qed.

(** [arctan2] gives the direction of the point (x, y). *)
Lemma arctan2_direction (x y : R) :
  sqrt (x * x + y * y) * cos (arctan2 y x) = x
  /\ sqrt (x * x + y * y) * sin (arctan2 y x) = y.
Proof.
  unfold arctan2.
  destruct (Rlt_dec 0 x) as [Hx|Hx].
  - rewrite hypot_factor, Rabs_right, cos_atan, sin_atan by lra.
    pose proof (root_pos (y / x)) as Hs.
    split; field; repeat split; lra.
  - destruct (Rlt_dec x 0) as [Hx'|Hx'].
    + pose proof (root_pos (y / x)) as Hs.
      rewrite hypot_factor, Rabs_left by lra.
      destruct (Rle_dec 0 y) as [Hy|Hy].
      * rewrite neg_cos, neg_sin, cos_atan, sin_atan.
        split; field; repeat split; lra.
      * unfold Rminus.
        rewrite cos_plus, sin_plus, cos_neg, sin_neg, cos_PI, sin_PI,
          cos_atan, sin_atan.
        split; field; repeat split; lra.
    + assert (E : x = 0) by lra. subst x.
      replace (0 * 0 + y * y) with (Rsqr y) by (unfold Rsqr; ring).
      rewrite sqrt_Rsqr_abs.
      destruct (Rlt_dec 0 y) as [Hy|Hy].
      * rewrite Rabs_right, cos_PI2, sin_PI2 by lra. split; ring.
      * destruct (Rlt_dec y 0) as [Hy'|Hy'].
        -- rewrite Rabs_left, cos_neg, sin_neg, cos_PI2, sin_PI2 by lra.
           split; ring.
        -- assert (E : y = 0) by lra. subst y.
           rewrite Rabs_R0, cos_0, sin_0. split; ring.
Qed.

Lemma to_vec_to_ang_row (v : vec3) :
  dot v v = 1 -> to_vec_row (to_ang_row v) = v.
Proof.
  destruct v as [[x y] z]. unfold dot. intros Hunit.
  unfold to_ang_row, to_vec_row. cbn [fst snd].
  rewrite Hunit, sqrt_1.
  replace (z / 1) with z by field.
  replace (PI / 2 - radians (90 - degrees (acos z))) with (acos z)
    by (unfold radians, degrees; field; apply PI_neq0).
  rewrite radians_degrees.
  assert (Hz : -1 <= z <= 1) by (split; nra).
  rewrite sin_acos, cos_acos by exact Hz.
  replace (1 - z²) with (x * x + y * y) by (unfold Rsqr; lra).
  destruct (arctan2_direction x y) as [Ec Es].
  rewrite Ec, Es. reflexivity.
Qed.

(** X25. On unit vectors, converting to angles and back returns the vector:
    [to_vec(to_ang(vec)) = vec] (exact real arithmetic), at the poles
    too. *)
Theorem X25_vectors_round_trip :
  forall vec : list vec3,
    Forall (fun v => dot v v = 1) vec ->
    to_vec (to_ang vec) = vec.
Proof.
  intros vec Hunit. unfold to_vec, to_ang. rewrite map_map.
  rewrite <- (map_id vec) at 2. apply map_ext_in. intros v Hv.
  rewrite Forall_forall in Hunit. apply to_vec_to_ang_row, Hunit, Hv.
Qed.

Lemma X25_witness : to_vec (to_ang [(0, 0, 1); (0, -1, 0)]) = [(0, 0, 1); (0, -1, 0)].
Proof.
  apply (X25_vectors_round_trip [(0, 0, 1); (0, -1, 0)]).
  repeat constructor; unfold dot; lra.
Defined.

Lemma to_vec_rotate_to (lon lat : R) (X : list (R * R)) :
  to_vec (rotate_to lon lat X) = map (matvec (rot_mat lon lat)) (to_vec X).
Proof.
  rewrite rotate_to_map. unfold to_vec. rewrite !map_map.
  apply map_ext. intros [l b]. apply to_vec_to_ang_row.
  rewrite rot_mat_dot. unfold to_vec_row, dot. cbn [fst snd].
  apply unit_norm.
Qed.

(** X26. [rotate_to] is the rigid rotation by [rot_mat]: the unit vectors
    of the rotated vertices are the unit vectors of the vertices multiplied
    by the matrix, for every target and every vertex list, so the scalar
    product (the angular separation) of any two vertices is preserved. *)
Theorem X26_rotate_to_rigid :
  forall (lon lat : R) (X : list (R * R)),
    to_vec (rotate_to lon lat X) = map (matvec (rot_mat lon lat)) (to_vec X)
    /\ forall a b a' b',
         rotate_to lon lat [a; b] = [a'; b'] ->
         dot (to_vec_row a') (to_vec_row b')
         = dot (to_vec_row a) (to_vec_row b).
Proof.
  intros lon lat X. split; [apply to_vec_rotate_to|].
  intros a b a' b' E.
  pose proof (to_vec_rotate_to lon lat [a; b]) as Ev.
  rewrite E in Ev. cbn [to_vec map] in Ev.
  pose proof (f_equal (fun l => nth 0 l (0, 0, 0)) Ev) as Ea.
  pose proof (f_equal (fun l => nth 1 l (0, 0, 0)) Ev) as Eb.
  cbn [nth] in Ea, Eb. rewrite Ea, Eb. apply rot_mat_dot.
Qed.

Lemma to_vec_east : to_vec_row (90, 0) = (0, 1, 0).
Proof.
  unfold to_vec_row. cbn [fst snd].
  replace (radians 90) with (PI / 2) by (unfold radians; field).
  rewrite radians_0, Rminus_0_r, sin_PI2, cos_PI2.
  tuple_eq; ring.
Qed.

Lemma rot_mat_second_column (lon lat : R) :
  matvec (rot_mat lon lat) (0, 1, 0) = to_vec_row (lon + 90, 0).
Proof.
  rewrite rot_mat_entries. unfold matvec, dot, to_vec_row. cbn [fst snd].
  replace (radians (lon + 90)) with (radians lon + PI / 2)
    by (unfold radians; field).
  rewrite radians_0, Rminus_0_r, sin_plus, cos_plus, sin_PI2, cos_PI2.
  tuple_eq; ring.
Qed.

Lemma X26_witness :
  dot (to_vec_row (30, -45)) (to_vec_row (30 + 90, 0))
  = dot (to_vec_row (0, 0)) (to_vec_row (90, 0)).
Proof.
  apply (proj2 (X26_rotate_to_rigid 30 (-45) [(0, 0); (90, 0)])
               (0, 0) (90, 0) (30, -45) (30 + 90, 0)).
  rewrite rotate_to_map. cbn [map].
  rewrite to_vec_origin, rot_mat_first_column, to_vec_east,
    rot_mat_second_column.
  rewrite !round_trip_row by lra. reflexivity.
Defined.





End GeomMore.

(** ** skycoverage.py: command-line values *)

Lemma split_field (sep : Ascii.ascii) (a rest : String.string) :
  free sep a = true ->
  split sep (String.append a (String.String sep rest)) = a :: split sep rest.
Proof.
  induction a as [|c a IH]; cbn [free String.append split]; intros Hfree.
  - rewrite Ascii.eqb_refl. reflexivity.
  - apply andb_true_iff in Hfree as [Hc Ha].
    apply negb_true_iff in Hc. rewrite Hc, (IH Ha). reflexivity.
Qed.

Lemma split_free (sep : Ascii.ascii) (a : String.string) :
  free sep a = true -> split sep a = [a].
Proof.
  induction a as [|c a IH]; cbn [free split]; intros Hfree; [reflexivity|].
  apply andb_true_iff in Hfree as [Hc Ha].
  apply negb_true_iff in Hc. rewrite Hc, (IH Ha). reflexivity.
Qed.

Lemma split_length (sep : Ascii.ascii) (s : String.string) :
  (1 <= length (split sep s))%nat.
Proof.
  induction s as [|c s IH]; cbn [split]; [cbn; lia|].
  destruct (Ascii.eqb c sep); [cbn [length]; lia|].
  destruct (split sep s); cbn [length] in *; lia.
Qed.

Lemma split_concat (sep : Ascii.ascii) (fields : list String.string) :
  fields <> [] ->
  Forall (fun f => free sep f = true) fields ->
  split sep (String.concat (String.String sep String.EmptyString) fields)
  = fields.
Proof.
  intros Hne Hfree. induction Hfree as [|f fields Hf Hrest IH]; [congruence|].
  destruct fields as [|g fields].
  - cbn [String.concat]. apply split_free, Hf.
  - change (String.concat (String.String sep String.EmptyString)
              (f :: g :: fields))
      with (String.append f
              (String.String sep
                 (String.concat (String.String sep String.EmptyString)
                    (g :: fields)))).
    rewrite split_field by exact Hf. rewrite IH by discriminate.
    reflexivity.
Qed.

(** X28. [to_slice] reads the fields between the colons. With exactly three
    fields it returns (start, stop, step), an empty field giving [None]
    without [int] being called on it. With four fields or more the step is
    dropped: the third and later fields are ignored, not even parsed, and
    the result is that of the first two fields alone. *)
Theorem X28_to_slice_fields :
  forall (int : String.string -> result Z) (a b c rest : String.string),
    free ":"%char a = true -> free ":"%char b = true ->
    free ":"%char c = true ->
    let colon := String.String ":"%char in
    to_slice int (String.append a (colon (String.append b (colon c))))
    = (x <- int_or_none int (or_none a) ;;
       y <- int_or_none int (or_none b) ;;
       z <- int_or_none int (or_none c) ;;
       Ok (x, y, z))
    /\ to_slice int
         (String.append a
            (colon (String.append b (colon (String.append c (colon rest))))))
       = to_slice int (String.append a (colon b)).
Proof.
  intros int a b c rest Ha Hb Hc colon. unfold to_slice, colon.
  rewrite !split_field by assumption.
  rewrite (split_free _ c Hc), (split_free _ b Hb).
  split; [reflexivity|].
  pose proof (split_length ":"%char rest) as Hl.
  cbn [length getitem nth_error bind Nat.leb].
  destruct (length (split ":"%char rest)) as [|n]; [lia|].
  reflexivity.
Qed.

Lemma X28_witness :
  to_slice (fun _ => Ok 7%Z) "1:10:2:"%string
  = to_slice (fun _ => Ok 7%Z) "1:10"%string.
Proof.
  apply (proj2 (X28_to_slice_fields (fun _ => Ok 7%Z)
                  "1"%string "10"%string "2"%string ""%string
                  eq_refl eq_refl eq_refl)).
Defined.

Lemma tuple_fields {A : Type} (type : String.string -> result A)
      (fields : list String.string) :
  forall t : list A,
    fold_right (fun x acc => v <- type x ;; t <- acc ;; Ok (v :: t))
               (Ok []) fields = Ok t
    <-> Forall2 (fun f v => type f = Ok v) fields t.
Proof.
  induction fields as [|f fields IH]; intros t; cbn [fold_right].
  - split.
    + intros [= <-]. constructor.
    + intros Hall. inversion Hall. reflexivity.
  - split.
    + destruct (type f) as [v|e] eqn:Ef; cbn [bind]; [|discriminate].
      destruct (fold_right _ _ fields) as [t'|e] eqn:Et; cbn [bind];
        [|discriminate].
      intros [= <-]. constructor; [exact Ef|]. apply IH. reflexivity.
    + intros Hall. inversion Hall as [|? v ? t' Ef Hrest]; subst.
      rewrite Ef. cbn [bind].
      apply IH in Hrest. rewrite Hrest. reflexivity.
Qed.

(** X29. [tuple_of(type)] applied to fields joined by commas succeeds
    exactly when [type] succeeds on every field, and then returns the
    values of the fields in order (so as many values as fields). *)
Theorem X29_tuple_of_fields :
  forall (A : Type) (type : String.string -> result A)
         (fields : list String.string) (t : list A),
    fields <> [] ->
    Forall (fun f => free ","%char f = true) fields ->
    tuple_of type (String.concat ","%string fields) = Ok t
    <-> Forall2 (fun f v => type f = Ok v) fields t.
Proof.
  intros A type fields t Hne Hfree. unfold tuple_of.
  rewrite split_concat by assumption. apply tuple_fields.
Qed.

Lemma X29_witness :
  tuple_of (fun f => Ok (String.length f)) "ab,c,,def"%string
  = Ok [2; 1; 0; 3]%nat.
Proof.
  apply (proj2 (X29_tuple_of_fields nat (fun f => Ok (String.length f))
                  ["ab"; "c"; ""; "def"]%string [2; 1; 0; 3]%nat
                  ltac:(discriminate)
                  ltac:(repeat constructor))).
  repeat constructor.
Defined.
